(** * dribbble-client: the casing pipeline, the authorization guard and the
      OAuth helpers of [src/lib/index.ts]

    The client is a TypeScript class over three libraries: lodash
    ([snakeCase], [camelCase], [pickBy]), Node's [url] / [querystring]
    and axios.  The class and its two helper functions are embedded
    below; the library functions they call are either modelled in their
    own module ([Js], [Lodash], [Querystring], [Url], [Axios]) or, for
    the two key-casing functions, taken as variables of the section
    that holds the class, so that every statement about the class holds
    for whatever those two functions compute. *)

From Stdlib Require Import List String Ascii Bool Arith ZArith NArith Lia.
From Stdlib Require Import DecimalString.
Import ListNotations.
Local Open Scope list_scope.
Local Open Scope string_scope.

(** ** JavaScript values and plain objects *)

Module Js.

(** The values that travel through the client.  [VNum] is a finite
    integral number (of a size JavaScript prints in plain decimal),
    [VNaN] the not-a-number value, [VObject] any
    non-array object that is not a plain mapping of the payload itself
    (a [Buffer], a nested object), kept opaque: the pipeline never looks
    inside a value. *)
Inductive value : Type :=
| VUndefined
| VNull
| VBool (b : bool)
| VNum (z : Z)
| VNaN
| VStr (s : string)
| VObject (tag : string).

(** ECMAScript [ToBoolean]. *)
Definition truthy (v : value) : bool :=
  match v with
  | VUndefined | VNull | VNaN => false
  | VBool b => b
  | VNum z => negb (Z.eqb z 0)
  | VStr s => negb (String.eqb s "")
  | VObject _ => true
  end.

(** A plain object: its own enumerable string-keyed properties in the
    order [Object.keys] lists them. *)
Definition obj : Type := list (string * value).

Definition keys (o : obj) : list string := map fst o.

Fixpoint lookup (k : string) (o : obj) : option value :=
  match o with
  | [] => None
  | (k', v) :: o' => if String.eqb k' k then Some v else lookup k o'
  end.

(** [o[k]]: the property, or [undefined] when there is none. *)
Definition get (o : obj) (k : string) : value :=
  match lookup k o with
  | Some v => v
  | None => VUndefined
  end.

Definition has (k : string) (o : obj) : bool :=
  match lookup k o with Some _ => true | None => false end.

(** *** Property order

    [Object.keys] lists array-index keys (canonical decimal numerals
    below 2^32 - 1) first, in ascending numeric order, and then every
    other key in the order of creation. *)

Definition is_digit (c : ascii) : bool :=
  let n := nat_of_ascii c in (48 <=? n)%nat && (n <=? 57)%nat.

Definition digit_val (c : ascii) : N := N.of_nat (nat_of_ascii c - 48).

Fixpoint digits_value (acc : N) (s : string) : option N :=
  match s with
  | EmptyString => Some acc
  | String c s' =>
      if is_digit c then digits_value (acc * 10 + digit_val c)%N s' else None
  end.

Definition array_index (k : string) : option N :=
  match k with
  | EmptyString => None
  | String c rest =>
      if Ascii.eqb c "0" && negb (String.eqb rest "") then None
      else match digits_value 0%N k with
           | Some n => if (n <=? 4294967294)%N then Some n else None
           | None => None
           end
  end.

Fixpoint replace (k : string) (v : value) (o : obj) : obj :=
  match o with
  | [] => []
  | (k', v') :: o' =>
      if String.eqb k' k then (k', v) :: o' else (k', v') :: replace k v o'
  end.

Fixpoint insert_index (n : N) (k : string) (v : value) (o : obj) : obj :=
  match o with
  | [] => [(k, v)]
  | (k', v') :: o' =>
      match array_index k' with
      | Some m =>
          if (m <? n)%N then (k', v') :: insert_index n k v o'
          else (k, v) :: o
      | None => (k, v) :: o
      end
  end.

(** [o[k] = v] on a plain object: an existing property keeps its place,
    a new one goes where the property order puts it.  The key
    [__proto__], which assigns the prototype instead of a property, is
    not given that meaning here: the casing functions of lodash return
    words joined without a leading underscore, never that key. *)
Definition set (k : string) (v : value) (o : obj) : obj :=
  if has k o then replace k v o
  else match array_index k with
       | Some n => insert_index n k v o
       | None => (o ++ [(k, v)])%list
       end.

End Js.

Import Js.

(** ** lodash: [pickBy], [snakeCase], [camelCase] *)

Module Lodash.

(** The keys that [baseSet], through which [pickBy] builds its result,
    refuses to write. *)
Definition unsafe_key (k : string) : bool :=
  String.eqb k "__proto__" || String.eqb k "constructor"
  || String.eqb k "prototype".

(** What [pickBy] keeps of an object: a truthy value under a key that
    [baseSet] writes. *)
Definition kept (k : string) (v : value) : bool :=
  truthy v && negb (unsafe_key k).

(** [pickBy(object)] with its default predicate, the identity: the
    properties whose value is truthy, in the order of the object, the
    keys [__proto__], [constructor] and [prototype] left out. *)
Definition pickBy (o : obj) : obj :=
  filter (fun kv => kept (fst kv) (snd kv)) o.

(** *** Word splitting on ASCII keys

    [snakeCase] and [camelCase] both split their argument with
    [words], after deleting apostrophes.  On ASCII text the pattern of
    [words] has these alternatives, tried in order at each position:
    an optional capital and a run of small letters; a run of capitals
    (giving back the last one when a small letter follows); an ordinal
    such as [1ST] or [4th]; a run of digits.  Every other ASCII
    character separates words.  Bytes above 127 are outside this model
    and are treated as separators. *)

Inductive cls : Type := Upper | Lower | Digit | Break.

Definition classify (c : ascii) : cls :=
  let n := nat_of_ascii c in
  if (65 <=? n)%nat && (n <=? 90)%nat then Upper
  else if (97 <=? n)%nat && (n <=? 122)%nat then Lower
  else if (48 <=? n)%nat && (n <=? 57)%nat then Digit
  else Break.

Definition isUpper c := match classify c with Upper => true | _ => false end.
Definition isLower c := match classify c with Lower => true | _ => false end.
Definition isDigit c := match classify c with Digit => true | _ => false end.

Definition toLower (c : ascii) : ascii :=
  if isUpper c then ascii_of_nat (nat_of_ascii c + 32) else c.

Definition toUpper (c : ascii) : ascii :=
  if isLower c then ascii_of_nat (nat_of_ascii c - 32) else c.

Fixpoint span (p : ascii -> bool) (s : list ascii) : list ascii * list ascii :=
  match s with
  | [] => ([], [])
  | c :: s' =>
      if p c then let (w, r) := span p s' in (c :: w, r) else ([], s)
  end.

(** A word that starts with a capital. *)
Definition upper_word (s : list ascii) : list ascii * list ascii :=
  let (U, r) := span isUpper s in
  match r with
  | c :: _ =>
      if isLower c then
        match U with
        | [u] => let (L, r') := span isLower r in (u :: L, r')
        | _ => (removelast U, last U " "%char :: r)
        end
      else (U, r)
  | [] => (U, [])
  end.

(** The two letters that make an ordinal of the digit [d]; [up] selects
    the upper-case spelling. *)
Definition ordinal_suffix (up : bool) (d c1 c2 : ascii) : bool :=
  let sfx (a b : ascii) :=
    if up then Ascii.eqb c1 (toUpper a) && Ascii.eqb c2 (toUpper b)
    else Ascii.eqb c1 a && Ascii.eqb c2 b in
  if Ascii.eqb d "1" then sfx "s"%char "t"%char
  else if Ascii.eqb d "2" then sfx "n"%char "d"%char
  else if Ascii.eqb d "3" then sfx "r"%char "d"%char
  else sfx "t"%char "h"%char.

(** What may follow an ordinal: a word boundary, or a letter of the
    other case, or an underscore. *)
Definition after_ordinal (up : bool) (r : list ascii) : bool :=
  match r with
  | [] => true
  | c :: _ =>
      match classify c with
      | Digit => false
      | Upper => negb up
      | Lower => up
      | Break => true
      end
  end.

(** A word that starts with a digit. *)
Definition digit_word (s : list ascii) : list ascii * list ascii :=
  let (D, r) := span isDigit s in
  match r with
  | c1 :: c2 :: r' =>
      let d := last D "0"%char in
      if ordinal_suffix true d c1 c2 && after_ordinal true r'
      then ((D ++ [c1; c2])%list, r')
      else if ordinal_suffix false d c1 c2 && after_ordinal false r'
      then ((D ++ [c1; c2])%list, r')
      else (D, r)
  | _ => (D, r)
  end.

Fixpoint words_fuel (fuel : nat) (s : list ascii) : list (list ascii) :=
  match fuel with
  | O => []
  | S fuel' =>
      match s with
      | [] => []
      | c :: s' =>
          match classify c with
          | Break => words_fuel fuel' s'
          | Lower => let (w, r) := span isLower s in w :: words_fuel fuel' r
          | Upper => let (w, r) := upper_word s in w :: words_fuel fuel' r
          | Digit => let (w, r) := digit_word s in w :: words_fuel fuel' r
          end
      end
  end.

Definition words (s : list ascii) : list (list ascii) :=
  words_fuel (List.length s) s.

(** The splitting shared by the compounders: apostrophes are deleted
    before the text is cut into words. *)
Definition compound_words (s : string) : list (list ascii) :=
  words (filter (fun c => negb (Ascii.eqb c "'")) (list_ascii_of_string s)).

Definition lower_word (w : list ascii) : list ascii := map toLower w.

Definition capitalize (w : list ascii) : list ascii :=
  match lower_word w with
  | [] => []
  | c :: w' => toUpper c :: w'
  end.

Fixpoint snake_join (ws : list (list ascii)) : list ascii :=
  match ws with
  | [] => []
  | [w] => lower_word w
  | w :: ws' => (lower_word w ++ "_"%char :: snake_join ws')%list
  end.

Definition snakeCase (s : string) : string :=
  string_of_list_ascii (snake_join (compound_words s)).

Definition camelCase (s : string) : string :=
  string_of_list_ascii
    (match compound_words s with
     | [] => []
     | w :: ws => (lower_word w ++ List.concat (map capitalize ws))%list
     end).

(** *** The shapes of a word

    What [words] returns: runs of letters, runs of digits, and
    ordinals. *)





End Lodash.

(** ** Node: [querystring.stringify] and [url.format]

    Strings are read as UTF-8 byte sequences, so that escaping byte by
    byte is the percent-encoding Node performs. *)

Module Querystring.

Definition hex_digit (n : nat) : ascii :=
  nth n (list_ascii_of_string "0123456789ABCDEF") "0"%char.

(** The characters [querystring.escape] leaves alone:
    letters, digits and [- _ . ! ~ * ' ( )]. *)
Definition unreserved (c : ascii) : bool :=
  match Lodash.classify c with
  | Lodash.Break =>
      existsb (Ascii.eqb c) (list_ascii_of_string "-_.!~*'()")
  | _ => true
  end.

Definition escape_char (c : ascii) : string :=
  if unreserved c then String c ""
  else
    let n := nat_of_ascii c in
    String "%" (String (hex_digit (n / 16)) (String (hex_digit (n mod 16)) "")).

(** [querystring.escape].  Node's function throws a [URIError] on a
    string that ends in a lone surrogate; the strings here are byte
    sequences of well-formed text, among which there is no such string. *)
Fixpoint escape (s : string) : string :=
  match s with
  | EmptyString => ""
  | String c s' => escape_char c ++ escape s'
  end.

Definition stringifyPrimitive (v : value) : string :=
  match v with
  | VStr s => s
  | VNum z => NilZero.string_of_int (Z.to_int z)
  | VBool true => "true"
  | VBool false => "false"
  | _ => ""
  end.

Definition field (kv : string * value) : string :=
  escape (fst kv) ++ "=" ++ escape (stringifyPrimitive (snd kv)).

Definition stringify (o : obj) : string :=
  String.concat "&" (map field o).

End Querystring.

Module Url.

(** The fields of the object [url.parse] returns. *)
Record UrlObject : Type := mkUrl {
  protocol : option string;
  slashes : bool;
  auth : option string;
  host : option string;
  port : option string;
  hostname : option string;
  hash : option string;
  search : option string;
  query : option obj;
  pathname : option string;
  path : option string;
  href : string
}.

(** [x || ''] on a string that may be [null]. *)
Definition or_empty (x : option string) : string :=
  match x with Some s => s | None => "" end.

Definition nonempty (s : string) : bool := negb (String.eqb s "").

Definition first_is (c : ascii) (s : string) : bool :=
  match s with String c' _ => Ascii.eqb c' c | EmptyString => false end.

Fixpoint last_is (c : ascii) (s : string) : bool :=
  match s with
  | EmptyString => false
  | String c' EmptyString => Ascii.eqb c' c
  | String _ s' => last_is c s'
  end.

Fixpoint contains (c : ascii) (s : string) : bool :=
  match s with
  | EmptyString => false
  | String c' s' => Ascii.eqb c' c || contains c s'
  end.

(** Replace every [#] by [%23] and, when [q] is set, every [?] by [%3F]. *)
Fixpoint escape_marks (q : bool) (s : string) : string :=
  match s with
  | EmptyString => ""
  | String c s' =>
      if Ascii.eqb c "#" then "%23" ++ escape_marks q s'
      else if q && Ascii.eqb c "?" then "%3F" ++ escape_marks q s'
      else String c (escape_marks q s')
  end.

(** [encodeURIComponent(auth)] with the first [%3A] turned back into a
    colon. *)
Fixpoint encode_auth (colon_seen : bool) (s : string) : string :=
  match s with
  | EmptyString => ""
  | String c s' =>
      if Ascii.eqb c ":" && negb colon_seen then String ":" (encode_auth true s')
      else Querystring.escape_char c ++ encode_auth colon_seen s'
  end.

Definition slashedProtocol (p : string) : bool :=
  existsb (String.eqb p)
    ["http"; "http:"; "https"; "https:"; "ftp"; "ftp:"; "gopher"; "gopher:";
     "file"; "file:"; "ws"; "ws:"; "wss"; "wss:"].

(** [url.format(urlObject)] on an object that is not a string. *)
Definition format (u : UrlObject) : string :=
  let auth0 := or_empty (auth u) in
  let auth1 := if nonempty auth0 then encode_auth false auth0 ++ "@" else "" in
  let protocol0 := or_empty (protocol u) in
  let pathname0 := or_empty (pathname u) in
  let hash0 := or_empty (hash u) in
  let host0 :=
    if nonempty (or_empty (host u)) then auth1 ++ or_empty (host u)
    else if nonempty (or_empty (hostname u)) then
      let hn := or_empty (hostname u) in
      auth1 ++ (if contains ":" hn then "[" ++ hn ++ "]" else hn)
            ++ (if nonempty (or_empty (port u)) then ":" ++ or_empty (port u) else "")
    else "" in
  let query0 :=
    match query u with Some q => Querystring.stringify q | None => "" end in
  let search0 :=
    if nonempty (or_empty (search u)) then or_empty (search u)
    else if nonempty query0 then "?" ++ query0 else "" in
  let protocol1 :=
    if nonempty protocol0 && negb (last_is ":" protocol0)
    then protocol0 ++ ":" else protocol0 in
  let pathname1 := escape_marks true pathname0 in
  let has_host :=
    nonempty (or_empty (host u)) || nonempty (or_empty (hostname u)) in
  let slashed := slashes u || slashedProtocol protocol1 in
  let pathname2 :=
    if slashed && has_host && nonempty pathname1 && negb (first_is "/" pathname1)
    then "/" ++ pathname1 else pathname1 in
  let host1 :=
    if slashed then
      if has_host then "//" ++ host0
      else if String.prefix "file" protocol1 then "//" else host0
    else host0 in
  let search1 := escape_marks false search0 in
  let hash1 :=
    if nonempty hash0 && negb (first_is "#" hash0) then "#" ++ hash0 else hash0 in
  let search2 :=
    if nonempty search1 && negb (first_is "?" search1)
    then "?" ++ search1 else search1 in
  protocol1 ++ host1 ++ pathname2 ++ search2 ++ hash1.

End Url.

(** ** axios: an instance, its defaults and the requests it sends *)

Module Axios.

Inductive Method : Type := GET | POST | DELETE.

(** What a call such as [instance.post(url, data)] or
    [instance.get(url, {params})] hands to the instance. *)
Record AxiosRequestConfig : Type := mkConfig {
  method : Method;
  url : string;
  data : option obj;
  params : option obj
}.

(** A request as it leaves the instance: the merged headers, the
    parameters for the query string, and the body produced by
    [transformRequest].  axios applies [transformRequest] to [data]
    only; [params] are serialised into the query string under their own
    names. *)
Record Request : Type := mkRequest {
  req_method : Method;
  req_url : string;
  req_headers : obj;
  req_params : option obj;
  req_body : string
}.

(** The mutable part of an instance, and [sent]: the requests handed to
    the transport so far, oldest first. *)
Record AxiosInstance : Type := mkInstance {
  baseURL : string;
  headers_common : obj;
  headers_post : obj;
  sent : list Request
}.

(** A returned promise is identified with the request it waits for. *)
Definition AxiosPromise : Type := Request.

Definition is_scheme_char (c : ascii) : bool :=
  match Lodash.classify c with
  | Lodash.Break => existsb (Ascii.eqb c) (list_ascii_of_string "+-.")
  | _ => true
  end.

Fixpoint after_scheme (s : string) : string :=
  match s with
  | String c s' => if is_scheme_char c then after_scheme s' else s
  | EmptyString => s
  end.

(** [isAbsoluteURL]: an optional scheme and colon, then two slashes. *)
Definition isAbsoluteURL (u : string) : bool :=
  String.prefix "//" u
  || match u with
     | String c _ =>
         match Lodash.classify c with
         | Lodash.Upper | Lodash.Lower => String.prefix "://" (after_scheme u)
         | _ => false
         end
     | EmptyString => false
     end.

Fixpoint strip_leading (s : string) : string :=
  match s with
  | String c s' => if Ascii.eqb c "/" then strip_leading s' else s
  | EmptyString => s
  end.

Fixpoint strip_trailing (s : string) : string :=
  match s with
  | EmptyString => ""
  | String c s' =>
      let t := strip_trailing s' in
      if Ascii.eqb c "/" && String.eqb t "" then "" else String c t
  end.

Definition combineURLs (base relative : string) : string :=
  if String.eqb relative "" then base
  else strip_trailing base ++ "/" ++ strip_leading relative.

Definition fullURL (base u : string) : string :=
  if Url.nonempty base && negb (isAbsoluteURL u) then combineURLs base u else u.

(** Later arguments win, as in [utils.merge]. *)
Definition merge (a b : obj) : obj :=
  fold_left (fun acc kv => Js.set (fst kv) (snd kv) acc) b a.

Definition method_headers (i : AxiosInstance) (m : Method) : obj :=
  match m with POST => headers_post i | _ => [] end.

(** [instance.request(config)]: build the outgoing request with
    [transform] in the place of [transformRequest] and hand it to the
    transport. *)
Definition request (transform : option obj -> string)
    (i : AxiosInstance) (c : AxiosRequestConfig) : AxiosPromise * AxiosInstance :=
  let r := {| req_method := method c;
              req_url := fullURL (baseURL i) (url c);
              req_headers := merge (headers_common i) (method_headers i (method c));
              req_params := params c;
              req_body := transform (data c) |} in
  (r, {| baseURL := baseURL i;
         headers_common := headers_common i;
         headers_post := headers_post i;
         sent := (sent i ++ [r])%list |}).

End Axios.

(** ** The client: [src/lib/index.ts] *)

Import Axios.

Definition API_ENDPOINT : string := "https://api.dribbble.com/v2".
Definition OAUTH_ENDPOINT : string := "https://dribbble.com/oauth".

(** The value of [parse(OAUTH_ENDPOINT)]. *)
Definition OAUTH_URI : Url.UrlObject :=
  {| Url.protocol := Some "https:";
     Url.slashes := true;
     Url.auth := None;
     Url.host := Some "dribbble.com";
     Url.port := None;
     Url.hostname := Some "dribbble.com";
     Url.hash := None;
     Url.search := None;
     Url.query := None;
     Url.pathname := Some "/oauth";
     Url.path := Some "/oauth";
     Url.href := "https://dribbble.com/oauth" |}.

(** [interface Pager]; the two numbers are taken integral. *)
Record Pager : Type := mkPager {
  page : Z;
  perPage : Z
}.

(** A [Pager] as the object it is at run time. *)
Definition Pager_obj (p : Pager) : obj :=
  [("page", VNum (page p)); ("perPage", VNum (perPage p))].

(** [enum EnumScope], with the strings the source gives its members. *)
Inductive EnumScope : Type := PUBLIC | UPLOAD.

Definition EnumScope_value (s : EnumScope) : string :=
  match s with
  | PUBLIC => "pulic"
  | UPLOAD => "upload"
  end.

(** [interface Client]: the constructor's configuration. *)
Record Client : Type := mkClient {
  cfg_clientId : string;
  cfg_clientSecret : string;
  cfg_scope : string
}.

(** A configuration, a pager and two payloads to run the client on. *)
Definition example_config : Client :=
  {| cfg_clientId := "abc"; cfg_clientSecret := "s3cret"; cfg_scope := "public" |}.

Definition example_pager : Pager := {| page := 1; perPage := 10 |}.

Definition example_payload : obj :=
  [("clientId", VStr "x"); ("perPage", VNum 10); ("state", VUndefined)].


(** A token response as the remote service sends it. *)
Definition example_response : obj :=
  [("access_token", VStr "abc123"); ("token_type", VStr "bearer");
   ("expires_in", VNum 0)].

(** [class DribbbleError extends Error]. *)
Record DribbbleError : Type := mkError {
  name : string;
  message : string;
  code : Z
}.

Definition new_DribbbleError (message : string) (code : Z) : DribbbleError :=
  {| name := "DribbbleError"; message := message; code := code |}.

(** The fields of [class Dribbble]. *)
Record Dribbble : Type := mkDribbble {
  accessToken : string;
  clientId : string;
  clientSecret : string;
  scope : string;
  client : AxiosInstance
}.

(** A method body runs on [this]: it throws or returns, and leaves the
    object in a new state either way. *)
Inductive outcome (A : Type) : Type :=
| Threw (e : DribbbleError)
| Returned (a : A).
Arguments Threw {A} e.
Arguments Returned {A} a.

Definition M (A : Type) : Type := Dribbble -> outcome A * Dribbble.

Definition ret {A : Type} (a : A) : M A := fun this => (Returned a, this).

Definition throw {A : Type} (e : DribbbleError) : M A :=
  fun this => (Threw e, this).

Definition bind {A B : Type} (m : M A) (f : A -> M B) : M B :=
  fun this =>
    match m this with
    | (Threw e, this') => (Threw e, this')
    | (Returned a, this') => f a this'
    end.

Notation "x <- m ;; k" := (bind m (fun x => k))
  (at level 61, m at next level, right associativity).
Notation "m ;; k" := (bind m (fun _ => k))
  (at level 61, right associativity).

Section Dribbble.

Set Default Proof Using "Type".

(** lodash's two key-casing functions. *)
Variables snakeCase camelCase : string -> string.

Definition snakePipe (data : obj) : obj :=
  fold_left
    (fun ret key => Js.set (snakeCase key) (Js.get data key) ret)
    (keys (Lodash.pickBy data)) [].

Definition camelPipe (data : obj) : obj :=
  fold_left
    (fun ret key => Js.set (camelCase key) (Js.get data key) ret)
    (keys data) [].

(** [transformRequest: [snakePipe, data => stringify(data)]].  A call
    without a body has [data] undefined, for which [pickBy] gives the
    empty object. *)
Definition transformRequest (data : option obj) : string :=
  Querystring.stringify
    (snakePipe (match data with Some o => o | None => [] end)).

(** The response interceptor: what a fulfilled promise resolves to, from
    the body of the response. *)
Definition onFulfilled (response_data : obj) : obj := camelPipe response_data.

(** [new Dribbble(clientConfig)].  [axios.create] starts from the
    library's own default [Accept] header.  This is the client as the
    first one of a process finds its transport: the releases of axios
    that hand the one object [defaults.headers.common] to every instance
    let a later client start from the common headers the earlier ones
    left, and nothing below is stated about two clients at once. *)
Definition new_Dribbble (clientConfig : Client) : Dribbble :=
  {| accessToken := "";
     clientId := cfg_clientId clientConfig;
     clientSecret := cfg_clientSecret clientConfig;
     scope := cfg_scope clientConfig;
     client :=
       {| baseURL := API_ENDPOINT;
          headers_common := [("Accept", VStr "application/json, text/plain, */*")];
          headers_post :=
            [("Content-Type", VStr "application/x-www-form-urlencoded")];
          sent := [] |} |}.

Definition with_client (this : Dribbble) (i : AxiosInstance) : Dribbble :=
  {| accessToken := accessToken this;
     clientId := clientId this;
     clientSecret := clientSecret this;
     scope := scope this;
     client := i |}.

(** [this.client.request], and the three verbs the class uses. *)
Definition client_request (c : AxiosRequestConfig) : M AxiosPromise :=
  fun this =>
    let (p, i) := Axios.request transformRequest (client this) c in
    (Returned p, with_client this i).

Definition client_get (url : string) (params : option obj) : M AxiosPromise :=
  client_request {| method := GET; url := url; data := None; params := params |}.

Definition client_post (url : string) (data : option obj) : M AxiosPromise :=
  client_request {| method := POST; url := url; data := data; params := None |}.

Definition client_delete (url : string) : M AxiosPromise :=
  client_request {| method := DELETE; url := url; data := None; params := None |}.

Definition enforceAuthorized : M unit :=
  fun this =>
    if String.eqb (accessToken this) ""
    then throw (new_DribbbleError "Need authorization." 403) this
    else ret tt this.

Definition makeRequest (options : AxiosRequestConfig) : M AxiosInstance :=
  fun this => ret (client this) this.

(** An optional string argument as a value. *)
Definition optional (x : option string) : value :=
  match x with Some s => VStr s | None => VUndefined end.

(** [scope || this.scope]. *)
Definition scope_or (scope : option string) (default : string) : string :=
  match scope with
  | Some s => if String.eqb s "" then default else s
  | None => default
  end.

Definition getAuthorizationUrl (scope_ redirectUri state : option string)
  : M string :=
  fun this =>
    let query := snakePipe
      [("clientId", VStr (clientId this));
       ("scope", VStr (scope_or scope_ (scope this)));
       ("redirectUri", optional redirectUri);
       ("state", optional state)] in
    ret (Url.format
           {| Url.protocol := Url.protocol OAUTH_URI;
              Url.slashes := Url.slashes OAUTH_URI;
              Url.auth := Url.auth OAUTH_URI;
              Url.host := Url.host OAUTH_URI;
              Url.port := Url.port OAUTH_URI;
              Url.hostname := Url.hostname OAUTH_URI;
              Url.hash := Url.hash OAUTH_URI;
              Url.search := Url.search OAUTH_URI;
              Url.query := Some query;
              Url.pathname := Some "/oauth/authorize";
              Url.path := Url.path OAUTH_URI;
              Url.href := Url.href OAUTH_URI |}) this.

Definition exchangeAuthorizationCode (code : string) (redirectUri : option string)
  : M AxiosPromise :=
  fun this =>
    client_post (OAUTH_ENDPOINT ++ "/token")
      (Some [("clientId", VStr (clientId this));
             ("clientSecret", VStr (clientSecret this));
             ("code", VStr code);
             ("redirectUri", optional redirectUri)]) this.

Definition setAccessToken (accessToken_ : string) : M unit :=
  fun this =>
    let i := client this in
    ret tt
      {| accessToken := accessToken_;
         clientId := clientId this;
         clientSecret := clientSecret this;
         scope := scope this;
         client :=
           {| baseURL := baseURL i;
              headers_common :=
                Js.set "Authorization" (VStr ("Bearer " ++ accessToken_))
                  (headers_common i);
              headers_post := headers_post i;
              sent := sent i |} |}.

Definition createAttachment (id : string) (file : value) : M AxiosPromise :=
  enforceAuthorized ;;
  client_post ("/shots/" ++ id ++ "/attachments") (Some [("file", file)]).

Definition deleteAttachment (id attachmentId : string) : M AxiosPromise :=
  enforceAuthorized ;;
  client_delete ("/shots/" ++ id ++ "/attachments/" ++ attachmentId).

Definition getLikes (params : Pager) : M AxiosPromise :=
  enforceAuthorized ;;
  client_get "/user/likes" (Some (Pager_obj params)).

Definition hasLiked (id : string) : M AxiosPromise :=
  enforceAuthorized ;;
  client_get ("/shots/" ++ id ++ "/like") None.

Definition likeShot (id : string) : M AxiosPromise :=
  enforceAuthorized ;;
  client_post ("/shots/" ++ id ++ "/like") None.

Definition unlikeShot (id : string) : M AxiosPromise :=
  client_delete ("/shots/" ++ id ++ "/like").

Definition getUserProject (params : Pager) : M AxiosPromise :=
  enforceAuthorized ;;
  client_get "/user/project" (Some (Pager_obj params)).

Definition createProject (name description : string) : M AxiosPromise :=
  enforceAuthorized ;;
  client_post "/projects"
    (Some [("name", VStr name); ("description", VStr description)]).

Definition updateProject (id : string) (data : obj) : M AxiosPromise :=
  enforceAuthorized ;;
  client_post ("/projects/" ++ id) (Some data).

Definition deleteProject (id : string) : M AxiosPromise :=
  enforceAuthorized ;;
  client_delete ("/projects/" ++ id).

Definition getUserShots (params : Pager) : M AxiosPromise :=
  enforceAuthorized ;;
  client_get "/user/shots" (Some (Pager_obj params)).

Definition getPopularShots (params : Pager) : M AxiosPromise :=
  client_get "/popular_shots" (Some (Pager_obj params)).

Definition getShot (id : string) : M AxiosPromise :=
  client_get ("/shots/" ++ id) None.

Definition createShot (data : obj) : M AxiosPromise :=
  enforceAuthorized ;;
  client_post "/shots" (Some data).

Definition updateShot (id : string) (data : obj) : M AxiosPromise :=
  enforceAuthorized ;;
  client_post ("/shots/" ++ id) (Some data).

Definition deleteShot (id : string) : M AxiosPromise :=
  enforceAuthorized ;;
  client_delete ("/shots/" ++ id).

Definition getProfile : M AxiosPromise :=
  enforceAuthorized ;;
  client_get "/user" None.

(** *** Calls and histories

    A call of a public method with its arguments, so that statements can
    range over every method and over sequences of calls. *)
Inductive call : Type :=
| GetAuthorizationUrl (scope_ redirectUri state : option string)
| ExchangeAuthorizationCode (code : string) (redirectUri : option string)
| CreateAttachment (id : string) (file : value)
| DeleteAttachment (id attachmentId : string)
| GetLikes (params : Pager)
| HasLiked (id : string)
| LikeShot (id : string)
| UnlikeShot (id : string)
| GetUserProject (params : Pager)
| CreateProject (name description : string)
| UpdateProject (id : string) (data : obj)
| DeleteProject (id : string)
| GetUserShots (params : Pager)
| GetPopularShots (params : Pager)
| GetShot (id : string)
| CreateShot (data : obj)
| UpdateShot (id : string) (data : obj)
| DeleteShot (id : string)
| GetProfile.

Inductive returned : Type :=
| RPromise (p : AxiosPromise)
| RString (s : string)
| RVoid.

Definition promise (m : M AxiosPromise) : M returned :=
  p <- m ;; ret (RPromise p).

Definition invoke (c : call) : M returned :=
  match c with
  | GetAuthorizationUrl s r st =>
      u <- getAuthorizationUrl s r st ;; ret (RString u)
  | ExchangeAuthorizationCode c r => promise (exchangeAuthorizationCode c r)
  | CreateAttachment id file => promise (createAttachment id file)
  | DeleteAttachment id a => promise (deleteAttachment id a)
  | GetLikes p => promise (getLikes p)
  | HasLiked id => promise (hasLiked id)
  | LikeShot id => promise (likeShot id)
  | UnlikeShot id => promise (unlikeShot id)
  | GetUserProject p => promise (getUserProject p)
  | CreateProject n d => promise (createProject n d)
  | UpdateProject id d => promise (updateProject id d)
  | DeleteProject id => promise (deleteProject id)
  | GetUserShots p => promise (getUserShots p)
  | GetPopularShots p => promise (getPopularShots p)
  | GetShot id => promise (getShot id)
  | CreateShot d => promise (createShot d)
  | UpdateShot id d => promise (updateShot id d)
  | DeleteShot id => promise (deleteShot id)
  | GetProfile => promise getProfile
  end.

Inductive action : Type :=
| SetAccessToken (accessToken_ : string)
| Invoke (c : call).

Definition perform (a : action) : M returned :=
  match a with
  | SetAccessToken t => setAccessToken t ;; ret RVoid
  | Invoke c => invoke c
  end.

(** The state a history of calls leaves behind; a call that throws
    leaves the state it threw in. *)
Definition run (history : list action) (this : Dribbble) : Dribbble :=
  fold_left (fun d a => snd (perform a d)) history this.

(** The methods whose body starts with [this.enforceAuthorized()]. *)
Definition protected (c : call) : bool :=
  match c with
  | CreateAttachment _ _ | DeleteAttachment _ _ | GetLikes _ | HasLiked _
  | LikeShot _ | GetUserProject _ | CreateProject _ _ | UpdateProject _ _
  | DeleteProject _ | GetUserShots _ | CreateShot _ | UpdateShot _ _
  | DeleteShot _ | GetProfile => true
  | _ => false
  end.

(** The requests sent between two states of the same client. *)
Definition sent_since (before after : Dribbble) : list Request :=
  skipn (List.length (sent (client before))) (sent (client after)).

Definition carries (header : string) (v : string) (r : Request) : Prop :=
  Js.lookup header (req_headers r) = Some (VStr v).

(** The request [this.client] makes of a configuration, and the client
    once that request has gone out: only the log of the transport has
    grown. *)
Definition outgoing (this : Dribbble) (c : AxiosRequestConfig) : Request :=
  fst (Axios.request transformRequest (client this) c).

Definition logged (r : Request) (this : Dribbble) : Dribbble :=
  with_client this
    {| baseURL := baseURL (client this);
       headers_common := headers_common (client this);
       headers_post := headers_post (client this);
       sent := (sent (client this) ++ [r])%list |}.

(** [m] returns the pending request [r] and its only effect is that [r]
    has been handed to the transport. *)
Definition issues (m : M AxiosPromise) (this : Dribbble) (r : Request) : Prop :=
  m this = (Returned r, logged r this).

Definition Unauthorized : DribbbleError :=
  new_DribbbleError "Need authorization." 403.

(** The [&]-separated fields of the query of a URL. *)
Fixpoint split_on (sep : ascii) (cur : string) (s : string) : list string :=
  match s with
  | EmptyString => [cur]
  | String c s' =>
      if Ascii.eqb c sep then cur :: split_on sep "" s'
      else split_on sep (cur ++ String c "") s'
  end.

Fixpoint after_char (sep : ascii) (s : string) : option string :=
  match s with
  | EmptyString => None
  | String c s' => if Ascii.eqb c sep then Some s' else after_char sep s'
  end.

Definition query_fields (url : string) : list string :=
  match after_char "?" url with
  | Some q => split_on "&" "" q
  | None => []
  end.

(** The configuration each method hands to [this.client], read off the
    method bodies; [getAuthorizationUrl] hands none. *)
Definition request_of (this : Dribbble) (c : call) : option AxiosRequestConfig :=
  let get_ u p := {| method := GET; url := u; data := None; params := p |} in
  let post_ u d := {| method := POST; url := u; data := d; params := None |} in
  let delete_ u := {| method := DELETE; url := u; data := None; params := None |} in
  match c with
  | GetAuthorizationUrl _ _ _ => None
  | ExchangeAuthorizationCode code_ redirectUri =>
      Some (post_ (OAUTH_ENDPOINT ++ "/token")
              (Some [("clientId", VStr (clientId this));
                     ("clientSecret", VStr (clientSecret this));
                     ("code", VStr code_);
                     ("redirectUri", optional redirectUri)]))
  | CreateAttachment id file =>
      Some (post_ ("/shots/" ++ id ++ "/attachments") (Some [("file", file)]))
  | DeleteAttachment id a =>
      Some (delete_ ("/shots/" ++ id ++ "/attachments/" ++ a))
  | GetLikes p => Some (get_ "/user/likes" (Some (Pager_obj p)))
  | HasLiked id => Some (get_ ("/shots/" ++ id ++ "/like") None)
  | LikeShot id => Some (post_ ("/shots/" ++ id ++ "/like") None)
  | UnlikeShot id => Some (delete_ ("/shots/" ++ id ++ "/like"))
  | GetUserProject p => Some (get_ "/user/project" (Some (Pager_obj p)))
  | CreateProject n d =>
      Some (post_ "/projects" (Some [("name", VStr n); ("description", VStr d)]))
  | UpdateProject id d => Some (post_ ("/projects/" ++ id) (Some d))
  | DeleteProject id => Some (delete_ ("/projects/" ++ id))
  | GetUserShots p => Some (get_ "/user/shots" (Some (Pager_obj p)))
  | GetPopularShots p => Some (get_ "/popular_shots" (Some (Pager_obj p)))
  | GetShot id => Some (get_ ("/shots/" ++ id) None)
  | CreateShot d => Some (post_ "/shots" (Some d))
  | UpdateShot id d => Some (post_ ("/shots/" ++ id) (Some d))
  | DeleteShot id => Some (delete_ ("/shots/" ++ id))
  | GetProfile => Some (get_ "/user" None)
  end.

(** The verb and the full URL of each method on a client whose base URL
    is [API_ENDPOINT]. *)
Definition endpoint (c : call) : option (Method * string) :=
  let api path := API_ENDPOINT ++ path in
  match c with
  | GetAuthorizationUrl _ _ _ => None
  | ExchangeAuthorizationCode _ _ => Some (POST, "https://dribbble.com/oauth/token")
  | CreateAttachment id _ => Some (POST, api ("/shots/" ++ id ++ "/attachments"))
  | DeleteAttachment id a =>
      Some (DELETE, api ("/shots/" ++ id ++ "/attachments/" ++ a))
  | GetLikes _ => Some (GET, api "/user/likes")
  | HasLiked id => Some (GET, api ("/shots/" ++ id ++ "/like"))
  | LikeShot id => Some (POST, api ("/shots/" ++ id ++ "/like"))
  | UnlikeShot id => Some (DELETE, api ("/shots/" ++ id ++ "/like"))
  | GetUserProject _ => Some (GET, api "/user/project")
  | CreateProject _ _ => Some (POST, api "/projects")
  | UpdateProject id _ => Some (POST, api ("/projects/" ++ id))
  | DeleteProject id => Some (DELETE, api ("/projects/" ++ id))
  | GetUserShots _ => Some (GET, api "/user/shots")
  | GetPopularShots _ => Some (GET, api "/popular_shots")
  | GetShot id => Some (GET, api ("/shots/" ++ id))
  | CreateShot _ => Some (POST, api "/shots")
  | UpdateShot id _ => Some (POST, api ("/shots/" ++ id))
  | DeleteShot id => Some (DELETE, api ("/shots/" ++ id))
  | GetProfile => Some (GET, api "/user")
  end.

(** Whether a call on this client reaches the transport: every method
    but [getAuthorizationUrl] does, a guarded one only with a token. *)
Definition goes_out (this : Dribbble) (c : call) : bool :=
  match request_of this c with
  | None => false
  | Some _ => negb (protected c) || negb (String.eqb (accessToken this) "")
  end.

(** The loop both pipes run: every key of [ks] in turn writes the
    property [f key] with the value [g key]. *)
Definition rename (f : string -> string) (g : string -> value)
    (ks : list string) (acc : obj) : obj :=
  fold_left (fun ret key => Js.set (f key) (g key) ret) ks acc.

(** ** Properties of plain objects *)

Lemma lookup_None_iff (k : string) (o : obj) :
  Js.lookup k o = None <-> ~ In k (keys o).
Proof.
  induction o as [|[k' v'] o IH]; simpl.
  - split; [intros _ [] | reflexivity].
  - destruct (String.eqb_spec k' k) as [->|Hne].
    + split; [discriminate | intros H; exfalso; apply H; now left].
    + rewrite IH. split.
      * intros H [E|I]; [congruence | exact (H I)].
      * intros H I. apply H. now right.
Qed.

Lemma lookup_Some_In (k : string) (v : value) (o : obj) :
  Js.lookup k o = Some v -> In (k, v) o.
Proof.
  induction o as [|[k' v'] o IH]; simpl; [discriminate|].
  destruct (String.eqb_spec k' k) as [->|Hne].
  - intros [= ->]. now left.
  - intros H. right. now apply IH.
Qed.

Lemma lookup_In_keys (k : string) (v : value) (o : obj) :
  Js.lookup k o = Some v -> In k (keys o).
Proof.
  intros H. apply lookup_Some_In in H.
  change k with (fst (k, v)). now apply in_map.
Qed.

Lemma In_lookup (k : string) (v : value) (o : obj) :
  NoDup (keys o) -> In (k, v) o -> Js.lookup k o = Some v.
Proof.
  induction o as [|[k' v'] o IH]; simpl; [intros _ []|].
  intros Hnd [E|I].
  - injection E as -> ->. now rewrite String.eqb_refl.
  - inversion Hnd as [|? ? Hni Hnd']; subst.
    destruct (String.eqb_spec k' k) as [->|Hne].
    + exfalso. apply Hni. change k with (fst (k, v)). now apply in_map.
    + now apply IH.
Qed.

Lemma has_true_iff (k : string) (o : obj) :
  Js.has k o = true <-> In k (keys o).
Proof.
  unfold Js.has. destruct (Js.lookup k o) eqn:E.
  - split; [intros _; eapply lookup_In_keys; eauto | reflexivity].
  - apply lookup_None_iff in E. split; [discriminate | intros H; now apply E in H].
Qed.

Lemma keys_replace (k : string) (v : value) (o : obj) :
  keys (Js.replace k v o) = keys o.
Proof.
  induction o as [|[k' v'] o IH]; simpl; [reflexivity|].
  destruct (String.eqb k' k); simpl; [reflexivity | now rewrite IH].
Qed.

Lemma lookup_replace_same (k : string) (v : value) (o : obj) :
  In k (keys o) -> Js.lookup k (Js.replace k v o) = Some v.
Proof.
  induction o as [|[k' v'] o IH]; simpl; [intros []|].
  intros H. destruct (String.eqb_spec k' k) as [->|Hne]; simpl.
  - now rewrite String.eqb_refl.
  - destruct (String.eqb_spec k' k); [congruence|].
    apply IH. destruct H; [congruence | assumption].
Qed.

Lemma lookup_replace_other (k k' : string) (v : value) (o : obj) :
  k' <> k -> Js.lookup k' (Js.replace k v o) = Js.lookup k' o.
Proof.
  intros Hne. induction o as [|[k0 v0] o IH]; simpl; [reflexivity|].
  destruct (String.eqb_spec k0 k) as [->|Hne0]; simpl.
  - destruct (String.eqb_spec k k'); [congruence | reflexivity].
  - destruct (String.eqb_spec k0 k'); [reflexivity | apply IH].
Qed.

Lemma insert_index_split (n : N) (k : string) (v : value) (o : obj) :
  exists o1 o2, o = (o1 ++ o2)%list /\
                Js.insert_index n k v o = (o1 ++ (k, v) :: o2)%list.
Proof.
  induction o as [|[k' v'] o IH]; simpl.
  - exists [], []. split; reflexivity.
  - destruct (Js.array_index k') as [m|].
    + destruct (m <? n)%N.
      * destruct IH as (o1 & o2 & -> & ->).
        exists ((k', v') :: o1), o2. split; reflexivity.
      * exists [], ((k', v') :: o). split; reflexivity.
    + exists [], ((k', v') :: o). split; reflexivity.
Qed.

(** Where a new property lands does not matter to what the object maps. *)
Lemma set_new_split (k : string) (v : value) (o : obj) :
  ~ In k (keys o) ->
  exists o1 o2, o = (o1 ++ o2)%list /\ Js.set k v o = (o1 ++ (k, v) :: o2)%list.
Proof.
  intros Hni. unfold Js.set.
  destruct (Js.has k o) eqn:Eh.
  - apply has_true_iff in Eh. contradiction.
  - destruct (Js.array_index k) as [n|].
    + apply insert_index_split.
    + exists o, []. split; [now rewrite app_nil_r | reflexivity].
Qed.

Lemma lookup_app (k : string) (o1 o2 : obj) :
  Js.lookup k (o1 ++ o2)%list =
  match Js.lookup k o1 with Some v => Some v | None => Js.lookup k o2 end.
Proof.
  induction o1 as [|[k' v'] o1 IH]; simpl; [reflexivity|].
  destruct (String.eqb k' k); [reflexivity | apply IH].
Qed.

Lemma lookup_set_same (k : string) (v : value) (o : obj) :
  Js.lookup k (Js.set k v o) = Some v.
Proof.
  destruct (in_dec string_dec k (keys o)) as [Hin|Hni].
  - unfold Js.set. apply has_true_iff in Hin as Hh. rewrite Hh.
    now apply lookup_replace_same.
  - destruct (set_new_split k v o Hni) as (o1 & o2 & Eo & ->).
    rewrite lookup_app.
    assert (H1 : Js.lookup k o1 = None).
    { apply lookup_None_iff. intros Hin. apply Hni. subst o.
      unfold keys. rewrite map_app. apply in_or_app. now left. }
    rewrite H1. simpl. now rewrite String.eqb_refl.
Qed.

Lemma lookup_set_other (k k' : string) (v : value) (o : obj) :
  k' <> k -> Js.lookup k' (Js.set k v o) = Js.lookup k' o.
Proof.
  intros Hne.
  destruct (in_dec string_dec k (keys o)) as [Hin|Hni].
  - unfold Js.set. apply has_true_iff in Hin as Hh. rewrite Hh.
    now apply lookup_replace_other.
  - destruct (set_new_split k v o Hni) as (o1 & o2 & Eo & ->).
    subst o. rewrite !lookup_app. simpl.
    destruct (String.eqb_spec k k'); [congruence | reflexivity].
Qed.

Lemma keys_set_iff (k k' : string) (v : value) (o : obj) :
  In k' (keys (Js.set k v o)) <-> k' = k \/ In k' (keys o).
Proof.
  destruct (string_dec k' k) as [->|Hne].
  - split; [now left|]. intros _.
    eapply lookup_In_keys. apply lookup_set_same.
  - split.
    + intros H. right.
      destruct (in_dec string_dec k' (keys o)) as [Hin|Hn]; [assumption|].
      exfalso. apply lookup_None_iff in Hn.
      rewrite <- (lookup_set_other k k' v o Hne) in Hn.
      apply lookup_None_iff in Hn. contradiction.
    + intros [E|H]; [contradiction|].
      destruct (Js.lookup k' (Js.set k v o)) eqn:E.
      * eapply lookup_In_keys; eauto.
      * rewrite lookup_set_other in E by assumption.
        apply lookup_None_iff in E. contradiction.
Qed.

Lemma NoDup_set (k : string) (v : value) (o : obj) :
  NoDup (keys o) -> NoDup (keys (Js.set k v o)).
Proof.
  intros Hnd.
  destruct (in_dec string_dec k (keys o)) as [Hin|Hni].
  - unfold Js.set. apply has_true_iff in Hin. rewrite Hin.
    now rewrite keys_replace.
  - destruct (set_new_split k v o Hni) as (o1 & o2 & Eo & ->).
    subst o. unfold keys in *. rewrite map_app in *. simpl.
    apply (NoDup_Add (Add_app k (map fst o1) (map fst o2))).
    split; assumption.
Qed.

(** ** The renaming loop *)

Lemma rename_snoc f g ks k acc :
  rename f g (ks ++ [k])%list acc = Js.set (f k) (g k) (rename f g ks acc).
Proof. unfold rename. now rewrite fold_left_app. Qed.

Lemma rename_keys_iff f g ks acc k' :
  In k' (keys (rename f g ks acc)) <->
  In k' (keys acc) \/ exists k, In k ks /\ f k = k'.
Proof.
  revert acc. induction ks as [|k ks IH]; intros acc; simpl.
  - split; [now left | intros [H|(k & [] & _)]; exact H].
  - change (rename f g (k :: ks) acc)
      with (rename f g ks (Js.set (f k) (g k) acc)).
    rewrite IH, keys_set_iff. split.
    + intros [[->|H]|(k2 & Hin & E)].
      * right. exists k. split; [now left | reflexivity].
      * now left.
      * right. exists k2. split; [now right | assumption].
    + intros [H|(k2 & [->|Hin] & E)].
      * left. now right.
      * left. left. now symmetry.
      * right. exists k2. now split.
Qed.

Lemma rename_lookup_untouched f g ks acc k' :
  (forall k, In k ks -> f k <> k') ->
  Js.lookup k' (rename f g ks acc) = Js.lookup k' acc.
Proof.
  revert acc. induction ks as [|k ks IH]; intros acc H; [reflexivity|].
  change (rename f g (k :: ks) acc)
    with (rename f g ks (Js.set (f k) (g k) acc)).
  rewrite IH by (intros k2 Hin; apply H; now right).
  apply lookup_set_other. intros E. apply (H k); [now left | now symmetry].
Qed.

(** The last key that writes a property decides its value. *)
Lemma rename_lookup_last f g l1 k l2 acc :
  (forall k2, In k2 l2 -> f k2 <> f k) ->
  Js.lookup (f k) (rename f g (l1 ++ k :: l2)%list acc) = Some (g k).
Proof.
  intros H. unfold rename. rewrite fold_left_app. simpl.
  fold (rename f g l1 acc).
  fold (rename f g l2 (Js.set (f k) (g k) (rename f g l1 acc))).
  rewrite rename_lookup_untouched by assumption.
  apply lookup_set_same.
Qed.

(** Every property of the result was written by some key. *)
Lemma rename_lookup_origin f g ks acc k' v' :
  Js.lookup k' (rename f g ks acc) = Some v' ->
  Js.lookup k' acc = Some v' \/ exists k, In k ks /\ f k = k' /\ g k = v'.
Proof.
  revert acc. induction ks as [|k ks IH]; intros acc H; [now left|].
  change (rename f g (k :: ks) acc)
    with (rename f g ks (Js.set (f k) (g k) acc)) in H.
  apply IH in H as [H|(k2 & Hin & E1 & E2)].
  - destruct (string_dec k' (f k)) as [->|Hne].
    + rewrite lookup_set_same in H. injection H as <-.
      right. exists k. repeat split. now left.
    + rewrite lookup_set_other in H by assumption. now left.
  - right. exists k2. repeat split; try assumption. now right.
Qed.

Lemma rename_NoDup f g ks acc :
  NoDup (keys acc) -> NoDup (keys (rename f g ks acc)).
Proof.
  revert acc. induction ks as [|k ks IH]; intros acc H; [exact H|].
  apply IH. now apply NoDup_set.
Qed.

(** ** [pickBy] *)

Lemma kept_true_iff k v :
  Lodash.kept k v = true <-> truthy v = true /\ Lodash.unsafe_key k = false.
Proof.
  unfold Lodash.kept. rewrite andb_true_iff, negb_true_iff. reflexivity.
Qed.

Lemma pickBy_In k v (data : obj) :
  In (k, v) (Lodash.pickBy data) <-> In (k, v) data /\ Lodash.kept k v = true.
Proof. unfold Lodash.pickBy. now rewrite filter_In. Qed.

Lemma pickBy_keys_In k (data : obj) :
  In k (keys (Lodash.pickBy data)) <->
  exists v, In (k, v) data /\ Lodash.kept k v = true.
Proof.
  unfold keys. rewrite in_map_iff. split.
  - intros ([k0 v] & E & H). simpl in E. subst k0.
    exists v. now apply pickBy_In.
  - intros (v & H). exists (k, v). split; [reflexivity | now apply pickBy_In].
Qed.

Lemma pickBy_all_kept (data : obj) :
  (forall k v, In (k, v) data -> Lodash.kept k v = true) ->
  Lodash.pickBy data = data.
Proof.
  induction data as [|[k v] data IH]; intros H; [reflexivity|].
  simpl. rewrite (H k v) by now left.
  f_equal. apply IH. intros k2 v2 Hin. apply (H k2 v2). now right.
Qed.

Lemma get_In (data : obj) k v :
  NoDup (keys data) -> In (k, v) data -> Js.get data k = v.
Proof. intros Hnd Hin. unfold Js.get. now rewrite (In_lookup k v data). Qed.

Lemma rename_lookup_unique f g ks acc k :
  In k ks ->
  (forall k2, In k2 ks -> f k2 = f k -> g k2 = g k) ->
  Js.lookup (f k) (rename f g ks acc) = Some (g k).
Proof.
  induction ks as [|x ks IH] using rev_ind; intros Hin H; [destruct Hin|].
  rewrite rename_snoc.
  destruct (string_dec (f x) (f k)) as [E|Hne].
  - rewrite E, lookup_set_same. f_equal.
    apply H; [apply in_or_app; right; now left | assumption].
  - rewrite lookup_set_other by congruence.
    apply in_app_or in Hin as [Hin|[->|[]]]; [|congruence].
    apply IH; [assumption|].
    intros k2 Hk2. apply H. apply in_or_app. now left.
Qed.

Lemma keys_In_pair (o : obj) k :
  In k (keys o) <-> exists v, In (k, v) o.
Proof.
  unfold keys. rewrite in_map_iff. split.
  - intros ([k0 v] & E & H). simpl in E. subst. now exists v.
  - intros (v & H). now exists (k, v).
Qed.

(** ** The two pipes *)

Lemma snakePipe_rename (data : obj) :
  snakePipe data =
  rename snakeCase (Js.get data) (keys (Lodash.pickBy data)) [].
Proof. reflexivity. Qed.

Lemma camelPipe_rename (data : obj) :
  camelPipe data = rename camelCase (Js.get data) (keys data) [].
Proof. reflexivity. Qed.

Lemma snakePipe_keys (data : obj) k' :
  In k' (keys (snakePipe data)) <->
  exists k v, In (k, v) data /\ Lodash.kept k v = true /\ snakeCase k = k'.
Proof.
  rewrite snakePipe_rename, rename_keys_iff. split.
  - intros [[]|(k & Hin & E)].
    apply pickBy_keys_In in Hin as (v & Hin & Ht). now exists k, v.
  - intros (k & v & Hin & Ht & E). right. exists k. split; [|assumption].
    apply pickBy_keys_In. now exists v.
Qed.

Lemma snakePipe_NoDup (data : obj) : NoDup (keys (snakePipe data)).
Proof. rewrite snakePipe_rename. apply rename_NoDup. constructor. Qed.

Lemma camelPipe_NoDup (data : obj) : NoDup (keys (camelPipe data)).
Proof. rewrite camelPipe_rename. apply rename_NoDup. constructor. Qed.

(** C3, as the code has it: the outbound transform [snakePipe] returns a
    mapping whose keys are exactly the snake_case forms of the keys that
    [pickBy] keeps: those with a truthy value (keys whose value is the
    empty string, 0, false, null or undefined contribute nothing) other
    than [constructor], [prototype] and [__proto__]; every property of
    the result is a kept property of the input under its snake_case name
    with the value unchanged, and a kept key has its value in the result
    whenever no later kept key has the same snake_case form: of several
    keys with one snake_case form the last one decides.
    [toWireFormat({clientId: "x", state: undefined})] is [{client_id: "x"}]. *)
Theorem snakePipe_spec :
  (forall data : obj, NoDup (keys data) ->
     (forall k', In k' (keys (snakePipe data)) <->
        exists k v, In (k, v) data /\ truthy v = true /\
                    Lodash.unsafe_key k = false /\ snakeCase k = k') /\
     (forall k' v', Js.lookup k' (snakePipe data) = Some v' ->
        exists k, In (k, v') data /\ truthy v' = true /\
                  Lodash.unsafe_key k = false /\ snakeCase k = k') /\
     (forall l1 k v l2, data = (l1 ++ (k, v) :: l2)%list ->
        truthy v = true -> Lodash.unsafe_key k = false ->
        (forall k2 v2, In (k2, v2) l2 -> truthy v2 = true ->
                       Lodash.unsafe_key k2 = false ->
                       snakeCase k2 <> snakeCase k) ->
        Js.lookup (snakeCase k) (snakePipe data) = Some v)) /\
  Forall (fun v => truthy v = false)
    [VStr ""; VNum 0; VBool false; VNull; VUndefined] /\
  (snakeCase "clientId" = "client_id" ->
   snakePipe [("clientId", VStr "x"); ("state", VUndefined)]
   = [("client_id", VStr "x")]).
Proof.
  split; [|split].
  - intros data Hnd. split; [|split].
    + intros k'. rewrite snakePipe_keys. split.
      * intros (k & v & Hin & Hk & E). apply kept_true_iff in Hk as (Ht & Hu).
        now exists k, v.
      * intros (k & v & Hin & Ht & Hu & E). exists k, v.
        repeat split; try assumption. now apply kept_true_iff.
    + intros k' v' H. rewrite snakePipe_rename in H.
      apply rename_lookup_origin in H as [H|(k & Hin & E & Hg)];
        [discriminate|].
      apply pickBy_keys_In in Hin as (v & Hin & Hk).
      apply kept_true_iff in Hk as (Ht & Hu).
      rewrite (get_In data k v Hnd Hin) in Hg. subst v'. now exists k.
    + intros l1 k v l2 -> Ht Hu Hlast.
      rewrite snakePipe_rename.
      assert (Ek : keys (Lodash.pickBy (l1 ++ (k, v) :: l2)%list) =
                   (keys (Lodash.pickBy l1) ++ k :: keys (Lodash.pickBy l2))%list).
      { unfold Lodash.pickBy, keys. rewrite filter_app. cbn [filter fst snd].
        rewrite (proj2 (kept_true_iff k v) (conj Ht Hu)).
        now rewrite map_app. }
      rewrite Ek, rename_lookup_last.
      * f_equal. apply get_In; [assumption|].
        apply in_or_app. right. now left.
      * intros k2 Hk2. apply pickBy_keys_In in Hk2 as (v2 & Hin & Hk).
        apply kept_true_iff in Hk as (Ht2 & Hu2).
        now apply (Hlast k2 v2).
  - repeat constructor.
  - intros E. unfold snakePipe. simpl. rewrite E. reflexivity.
Qed.


(** C9: both transforms are total functions of the mapping they are
    given, return a well-formed mapping for every input, and map the
    empty mapping to the empty mapping. *)
Theorem pipes_total_and_empty :
  snakePipe [] = [] /\ camelPipe [] = [] /\
  (forall data : obj,
     NoDup (keys (snakePipe data)) /\ NoDup (keys (camelPipe data))).
Proof.
  split; [reflexivity|]. split; [reflexivity|].
  intros data. split; [apply snakePipe_NoDup | apply camelPipe_NoDup].
Qed.

(** ** The guard and the transport *)

Lemma guard_fails (m : M AxiosPromise) (this : Dribbble) :
  accessToken this = "" ->
  (enforceAuthorized ;; m) this = (Threw Unauthorized, this).
Proof.
  intros H. unfold bind, enforceAuthorized. now rewrite H.
Qed.

Lemma guard_passes (m : M AxiosPromise) (this : Dribbble) :
  accessToken this <> "" ->
  (enforceAuthorized ;; m) this = m this.
Proof.
  intros H. unfold bind, enforceAuthorized.
  destruct (String.eqb_spec (accessToken this) ""); [contradiction|reflexivity].
Qed.

Lemma client_request_issues (c : AxiosRequestConfig) (this : Dribbble) :
  issues (client_request c) this (outgoing this c).
Proof. reflexivity. Qed.

Lemma promise_issues (m : M AxiosPromise) (this : Dribbble) (r : Request) :
  issues m this r -> promise m this = (Returned (RPromise r), logged r this).
Proof. unfold issues, promise, bind. intros ->. reflexivity. Qed.

Lemma promise_throws (m : M AxiosPromise) (this this' : Dribbble) e :
  m this = (Threw e, this') -> promise m this = (Threw e, this').
Proof. unfold promise, bind. intros ->. reflexivity. Qed.

Lemma protected_throws (c : call) (this : Dribbble) :
  protected c = true ->
  accessToken this = "" ->
  invoke c this = (Threw Unauthorized, this).
Proof.
  intros Hp Ht.
  destruct c; try discriminate Hp; simpl;
    apply promise_throws; now apply guard_fails.
Qed.

(** C1: with the empty string as stored access token, every protected
    method fails at once with the [DribbbleError] of the guard, whose
    code is 403, and leaves the client, and so the log of the transport,
    as it was: no request goes out.  A freshly constructed client is in
    that state. *)
Theorem protected_call_without_token (c : call) (this : Dribbble) :
  protected c = true ->
  accessToken this = "" ->
  invoke c this = (Threw Unauthorized, this) /\
  code Unauthorized = 403%Z /\
  sent (client (snd (invoke c this))) = sent (client this).
Proof.
  intros Hp Ht. rewrite (protected_throws c this Hp Ht). repeat split.
Qed.

Lemma new_Dribbble_accessToken (clientConfig : Client) :
  accessToken (new_Dribbble clientConfig) = "".
Proof. reflexivity. Qed.

(** C8: [getPopularShots], [getShot] and [unlikeShot] hand a request to
    the transport in every state of the client, the one without a
    token included; they never throw. *)
Theorem unprotected_calls_go_out (this : Dribbble) :
  (forall params, exists r,
      issues (getPopularShots params) this r /\
      req_method r = GET /\
      req_url r = fullURL (baseURL (client this)) "/popular_shots" /\
      req_params r = Some (Pager_obj params)) /\
  (forall id, exists r,
      issues (getShot id) this r /\
      req_method r = GET /\
      req_url r = fullURL (baseURL (client this)) ("/shots/" ++ id)) /\
  (forall id, exists r,
      issues (unlikeShot id) this r /\
      req_method r = DELETE /\
      req_url r = fullURL (baseURL (client this)) ("/shots/" ++ id ++ "/like")).
Proof.
  repeat split; intros x; eexists; repeat split;
    try apply client_request_issues; reflexivity.
Qed.

(** C7: [exchangeAuthorizationCode] posts to the token endpoint the
    object [{clientId, clientSecret, code, redirectUri}] run through
    [snakePipe] and form-encoded, and changes nothing in the client but
    the log of the transport: the stored token, the guard and the
    default headers are as before. *)
Theorem exchangeAuthorizationCode_spec
    (code_ : string) (redirectUri : option string) (this : Dribbble) :
  exists r,
    issues (exchangeAuthorizationCode code_ redirectUri) this r /\
    req_method r = POST /\
    req_url r = "https://dribbble.com/oauth/token" /\
    req_body r =
      Querystring.stringify
        (snakePipe [("clientId", VStr (clientId this));
                    ("clientSecret", VStr (clientSecret this));
                    ("code", VStr code_);
                    ("redirectUri", optional redirectUri)]) /\
    accessToken (logged r this) = accessToken this /\
    headers_common (client (logged r this)) = headers_common (client this) /\
    fst (enforceAuthorized (logged r this)) = fst (enforceAuthorized this).
Proof.
  eexists. split; [apply client_request_issues|].
  repeat split.
  - unfold outgoing. simpl. unfold fullURL.
    replace (isAbsoluteURL (OAUTH_ENDPOINT ++ "/token")) with true
      by reflexivity.
    now rewrite andb_false_r.
  - unfold enforceAuthorized, logged, with_client. simpl.
    now destruct (String.eqb (accessToken this) "").
Qed.

(** ** Histories of calls *)

Lemma replace_replace k v1 v2 (o : obj) :
  Js.replace k v2 (Js.replace k v1 o) = Js.replace k v2 o.
Proof.
  induction o as [|[k' v'] o IH]; simpl; [reflexivity|].
  destruct (String.eqb k' k) eqn:E; simpl; rewrite E;
    [reflexivity | now rewrite IH].
Qed.

Lemma replace_new_middle k v1 v2 (o1 o2 : obj) :
  ~ In k (keys o1) ->
  Js.replace k v2 (o1 ++ (k, v1) :: o2)%list = (o1 ++ (k, v2) :: o2)%list.
Proof.
  induction o1 as [|[k' v'] o1 IH]; simpl; intros H.
  - now rewrite String.eqb_refl.
  - destruct (String.eqb_spec k' k) as [->|Hne].
    + exfalso. apply H. now left.
    + f_equal. apply IH. intros Hin. apply H. now right.
Qed.

Lemma insert_index_value n k v1 v2 (o : obj) :
  exists o1 o2, o = (o1 ++ o2)%list /\
    Js.insert_index n k v1 o = (o1 ++ (k, v1) :: o2)%list /\
    Js.insert_index n k v2 o = (o1 ++ (k, v2) :: o2)%list.
Proof.
  induction o as [|[k' v'] o IH]; simpl.
  - exists [], []. repeat split.
  - destruct (Js.array_index k') as [m|].
    + destruct (m <? n)%N.
      * destruct IH as (o1 & o2 & -> & -> & ->).
        exists ((k', v') :: o1), o2. repeat split.
      * exists [], ((k', v') :: o). repeat split.
    + exists [], ((k', v') :: o). repeat split.
Qed.

(** Writing a property twice is writing it once, with the later value. *)
Lemma set_set k v1 v2 (o : obj) :
  Js.set k v2 (Js.set k v1 o) = Js.set k v2 o.
Proof.
  assert (Hin : Js.has k (Js.set k v1 o) = true).
  { apply has_true_iff, keys_set_iff. now left. }
  unfold Js.set at 1. rewrite Hin. unfold Js.set.
  destruct (Js.has k o) eqn:Eh.
  - apply replace_replace.
  - assert (Hni : ~ In k (keys o)).
    { intros H. apply has_true_iff in H. congruence. }
    destruct (Js.array_index k) as [n|].
    + destruct (insert_index_value n k v1 v2 o) as (o1 & o2 & Eo & -> & ->).
      apply replace_new_middle. intros H. apply Hni. subst o.
      unfold keys. rewrite map_app. apply in_or_app. now left.
    + now apply replace_new_middle.
Qed.

Lemma lookup_merge_absent k (a b : obj) :
  ~ In k (keys b) -> Js.lookup k (merge a b) = Js.lookup k a.
Proof.
  unfold merge. revert a. induction b as [|[k' v'] b IH]; intros a H; simpl.
  - reflexivity.
  - rewrite IH by (intros Hin; apply H; now right).
    apply lookup_set_other. intros ->. apply H. now left.
Qed.

Lemma outgoing_carries (this : Dribbble) (c : AxiosRequestConfig) v :
  ~ In "Authorization" (keys (headers_post (client this))) ->
  Js.lookup "Authorization" (headers_common (client this)) = Some (VStr v) ->
  carries "Authorization" v (outgoing this c).
Proof.
  intros Hpost Hcommon. unfold carries, outgoing. simpl.
  rewrite lookup_merge_absent; [assumption|].
  destruct (method c); simpl; try (intros []); exact Hpost.
Qed.

Lemma guarded_cases (cfg : AxiosRequestConfig) (this : Dribbble) :
  promise (enforceAuthorized ;; client_request cfg) this
    = (Threw Unauthorized, this) \/
  promise (enforceAuthorized ;; client_request cfg) this
    = (Returned (RPromise (outgoing this cfg)), logged (outgoing this cfg) this).
Proof.
  destruct (string_dec (accessToken this) "") as [E|Hne].
  - left. apply promise_throws. now apply guard_fails.
  - right. apply promise_issues. unfold issues. rewrite guard_passes by assumption.
    apply client_request_issues.
Qed.

Ltac unfold_methods :=
  unfold createAttachment, deleteAttachment, getLikes, hasLiked, likeShot,
    unlikeShot, getUserProject, createProject, updateProject, deleteProject,
    getUserShots, getPopularShots, getShot, createShot, updateShot,
    deleteShot, getProfile, client_get, client_post, client_delete.

(** A call either leaves the client as it is, or sends one request built
    from the defaults the client has at that moment. *)
Lemma invoke_cases (c : call) (this : Dribbble) :
  snd (invoke c this) = this \/
  exists cfg, snd (invoke c this) = logged (outgoing this cfg) this.
Proof.
  destruct c; cbn [invoke]; unfold_methods.
  all: try match goal with
    | |- context [promise (enforceAuthorized ;; client_request ?cfg)] =>
        destruct (guarded_cases cfg this) as [H|H]; rewrite H;
        [left; reflexivity | right; exists cfg; reflexivity]
    | |- context [promise (client_request ?cfg)] =>
        right; exists cfg; reflexivity
    end.
  - left. reflexivity.
  - right.
    exists {| method := POST; url := OAUTH_ENDPOINT ++ "/token";
              data := Some [("clientId", VStr (clientId this));
                            ("clientSecret", VStr (clientSecret this));
                            ("code", VStr code0);
                            ("redirectUri", optional redirectUri)];
              params := None |}.
    reflexivity.
Qed.

Lemma invoke_frame (c : call) (this : Dribbble) :
  let this' := snd (invoke c this) in
  accessToken this' = accessToken this /\
  headers_common (client this') = headers_common (client this) /\
  headers_post (client this') = headers_post (client this) /\
  exists new,
    sent (client this') = (sent (client this) ++ new)%list /\
    Forall (fun r => exists cfg, r = outgoing this cfg) new.
Proof.
  destruct (invoke_cases c this) as [E|(cfg & E)]; simpl; rewrite E.
  - repeat split. exists []. split; [now rewrite app_nil_r | constructor].
  - repeat split. exists [outgoing this cfg]. split; [reflexivity|].
    constructor; [now exists cfg | constructor].
Qed.

Lemma run_invokes_frame (calls : list call) (this : Dribbble) :
  let this' := run (map Invoke calls) this in
  accessToken this' = accessToken this /\
  headers_common (client this') = headers_common (client this) /\
  headers_post (client this') = headers_post (client this) /\
  exists new,
    sent (client this') = (sent (client this) ++ new)%list /\
    Forall (fun r => exists d cfg,
                r = outgoing d cfg /\
                headers_common (client d) = headers_common (client this) /\
                headers_post (client d) = headers_post (client this)) new.
Proof.
  revert this. induction calls as [|c calls IH]; intros this; simpl.
  - repeat split. exists []. split; [now rewrite app_nil_r | constructor].
  - destruct (invoke_frame c this) as (Ea & Ec & Ep & new1 & Es & Hn1).
    destruct (IH (snd (invoke c this))) as (Ea' & Ec' & Ep' & new2 & Es' & Hn2).
    simpl in *. fold (run (map Invoke calls) (snd (invoke c this))).
    repeat split; try congruence.
    exists (new1 ++ new2)%list. split.
    + rewrite Es', Es. now rewrite app_assoc.
    + apply Forall_app. split.
      * eapply Forall_impl; [|exact Hn1]. intros r (cfg & ->).
        exists this, cfg. repeat split.
      * eapply Forall_impl; [|exact Hn2]. intros r (d & cfg & -> & H1 & H2).
        exists d, cfg. repeat split; congruence.
Qed.

Lemma run_headers_post (history : list action) (this : Dribbble) :
  headers_post (client (run history this)) = headers_post (client this).
Proof.
  revert this. induction history as [|a history IH]; intros this; simpl;
    [reflexivity|].
  fold (run history (snd (perform a this))). rewrite IH.
  destruct a as [t|c]; [reflexivity|]. apply invoke_frame.
Qed.

Lemma sent_since_app (d1 d2 : Dribbble) new :
  sent (client d2) = (sent (client d1) ++ new)%list -> sent_since d1 d2 = new.
Proof.
  intros E. unfold sent_since. rewrite E, skipn_app, skipn_all, Nat.sub_diag.
  reflexivity.
Qed.

Lemma setAccessToken_installs (t : string) (this : Dribbble) :
  let this' := snd (setAccessToken t this) in
  accessToken this' = t /\
  Js.lookup "Authorization" (headers_common (client this'))
    = Some (VStr ("Bearer " ++ t)) /\
  headers_post (client this') = headers_post (client this) /\
  sent (client this') = sent (client this).
Proof. simpl. repeat split. apply lookup_set_same. Qed.

Lemma new_Dribbble_headers_post (clientConfig : Client) :
  ~ In "Authorization" (keys (headers_post (client (new_Dribbble clientConfig)))).
Proof. simpl. intros [H|[]]. discriminate H. Qed.

(** C6: after [setAccessToken(t)] on a client, whatever was called on it
    before, every request that the following calls send carries the
    header [Authorization: Bearer t]; setting the same token twice is
    setting it once, and setting a token after another leaves exactly
    what setting the later one alone leaves: the stored token and the
    header are those of the most recent call. *)
Theorem setAccessToken_spec :
  (forall (clientConfig : Client) (before : list action) (t : string)
          (calls : list call),
      let d1 := snd (setAccessToken t (run before (new_Dribbble clientConfig))) in
      let d2 := run (map Invoke calls) d1 in
      Forall (carries "Authorization" ("Bearer " ++ t)) (sent_since d1 d2)) /\
  (forall (this : Dribbble) (t : string),
      accessToken (snd (setAccessToken t this)) = t /\
      Js.lookup "Authorization"
        (headers_common (client (snd (setAccessToken t this))))
      = Some (VStr ("Bearer " ++ t))) /\
  (forall (this : Dribbble) (t : string),
      setAccessToken t (snd (setAccessToken t this)) = setAccessToken t this) /\
  (forall (this : Dribbble) (t1 t2 : string),
      setAccessToken t2 (snd (setAccessToken t1 this)) = setAccessToken t2 this).
Proof.
  split; [|split; [|split]].
  - intros clientConfig before t calls d1 d2.
    destruct (setAccessToken_installs t (run before (new_Dribbble clientConfig)))
      as (_ & Hc & Hp & _). fold d1 in Hc, Hp.
    rewrite run_headers_post in Hp.
    destruct (run_invokes_frame calls d1) as (_ & _ & _ & new & Es & Hnew).
    fold d2 in Es. rewrite (sent_since_app d1 d2 new Es).
    eapply Forall_impl; [|exact Hnew].
    intros r (d & cfg & -> & H1 & H2). apply outgoing_carries.
    + rewrite H2, Hp. apply new_Dribbble_headers_post.
    + now rewrite H1.
  - intros this t. split; apply (setAccessToken_installs t this).
  - intros this t. unfold setAccessToken, ret. simpl. now rewrite set_set.
  - intros this t1 t2. unfold setAccessToken, ret. simpl. now rewrite set_set.
Qed.

(** C10: after [setAccessToken("")], and whatever calls follow it, every
    protected method throws the guard's error with code 403 and sends
    nothing, although the default header [Authorization] is installed,
    with the value [Bearer ] followed by the empty token: the guard looks
    at the stored string only. *)
Theorem setAccessToken_empty_deauthorizes
    (this : Dribbble) (calls : list call) (c : call) :
  protected c = true ->
  let d1 := snd (setAccessToken "" this) in
  let d2 := run (map Invoke calls) d1 in
  invoke c d2 = (Threw Unauthorized, d2) /\
  code Unauthorized = 403%Z /\
  sent_since d2 (snd (invoke c d2)) = [] /\
  Js.lookup "Authorization" (headers_common (client d2)) = Some (VStr "Bearer ").
Proof.
  intros Hp d1 d2.
  destruct (run_invokes_frame calls d1) as (Ea & Ec & _).
  fold d2 in Ea, Ec.
  assert (Ht : accessToken d2 = "") by (rewrite Ea; reflexivity).
  rewrite (protected_throws c d2 Hp Ht). repeat split.
  - apply sent_since_app. simpl. now rewrite app_nil_r.
  - rewrite Ec. apply (setAccessToken_installs "" this).
Qed.

(** ** The authorization URL *)

Lemma append_assoc (a b c : string) : (a ++ b) ++ c = a ++ (b ++ c).
Proof. induction a as [|x a IH]; simpl; [reflexivity | now rewrite IH]. Qed.

Lemma append_empty_r (a : string) : a ++ "" = a.
Proof. induction a as [|x a IH]; simpl; [reflexivity | now rewrite IH]. Qed.

Lemma contains_app c (a b : string) :
  Url.contains c (a ++ b) = Url.contains c a || Url.contains c b.
Proof.
  induction a as [|x a IH]; simpl; [reflexivity|].
  rewrite IH. now rewrite orb_assoc.
Qed.

(** Escaped text holds none of the characters that structure a query. *)
Lemma escape_char_clean (c : ascii) :
  Url.contains "#" (Querystring.escape_char c) = false /\
  Url.contains "&" (Querystring.escape_char c) = false /\
  Url.contains "?" (Querystring.escape_char c) = false.
Proof.
  destruct c as [[] [] [] [] [] [] [] []]; repeat split; reflexivity.
Qed.

Lemma escape_clean (s : string) :
  Url.contains "#" (Querystring.escape s) = false /\
  Url.contains "&" (Querystring.escape s) = false /\
  Url.contains "?" (Querystring.escape s) = false.
Proof.
  induction s as [|c s (IH1 & IH2 & IH3)]; simpl; [repeat split|].
  destruct (escape_char_clean c) as (H1 & H2 & H3).
  rewrite !contains_app, H1, H2, H3, IH1, IH2, IH3. repeat split.
Qed.

Lemma escape_marks_clean (s : string) :
  Url.contains "#" s = false -> Url.escape_marks false s = s.
Proof.
  induction s as [|c s IH]; simpl; [reflexivity|].
  destruct (Ascii.eqb c "#"); simpl; [discriminate|].
  intros H. now rewrite IH.
Qed.

Lemma field_clean (kv : string * value) :
  Url.contains "#" (Querystring.field kv) = false.
Proof.
  unfold Querystring.field. rewrite !contains_app.
  destruct (escape_clean (fst kv)) as (-> & _).
  destruct (escape_clean (Querystring.stringifyPrimitive (snd kv))) as (-> & _).
  reflexivity.
Qed.

Lemma stringify_clean (q : obj) :
  Url.contains "#" (Querystring.stringify q) = false.
Proof.
  unfold Querystring.stringify.
  induction q as [|kv q IH]; [reflexivity|].
  destruct q as [|kv' q]; simpl in *; [apply field_clean|].
  rewrite !contains_app, field_clean. exact IH.
Qed.

(** [format] on the parsed OAuth endpoint with the path and the query
    replaced. *)
Lemma format_authorize (q : obj) :
  Url.format
    {| Url.protocol := Url.protocol OAUTH_URI;
       Url.slashes := Url.slashes OAUTH_URI;
       Url.auth := Url.auth OAUTH_URI;
       Url.host := Url.host OAUTH_URI;
       Url.port := Url.port OAUTH_URI;
       Url.hostname := Url.hostname OAUTH_URI;
       Url.hash := Url.hash OAUTH_URI;
       Url.search := Url.search OAUTH_URI;
       Url.query := Some q;
       Url.pathname := Some "/oauth/authorize";
       Url.path := Url.path OAUTH_URI;
       Url.href := Url.href OAUTH_URI |}
  = "https://dribbble.com/oauth/authorize"
    ++ (if Url.nonempty (Querystring.stringify q)
        then "?" ++ Querystring.stringify q else "").
Proof.
  pose proof (stringify_clean q) as Hq.
  unfold Url.format. cbn [Url.protocol Url.slashes Url.auth Url.host Url.port
    Url.hostname Url.hash Url.search Url.query Url.pathname OAUTH_URI].
  generalize dependent (Querystring.stringify q). intros Q HQ.
  destruct Q as [|c Q].
  - reflexivity.
  - change (Url.nonempty (String c Q)) with true. cbv iota.
    change (Url.nonempty (Url.or_empty None)) with false. cbv iota.
    change (Url.escape_marks false ("?" ++ String c Q))
      with (String "?" (Url.escape_marks false (String c Q))).
    rewrite (escape_marks_clean _ HQ).
    cbn. now rewrite append_empty_r.
Qed.

Lemma split_on_clean sep (cur a : string) :
  Url.contains sep a = false -> split_on sep cur a = [cur ++ a].
Proof.
  revert cur. induction a as [|c a IH]; intros cur; simpl.
  - now rewrite append_empty_r.
  - destruct (Ascii.eqb c sep); simpl; [discriminate|].
    intros H. rewrite IH by assumption. now rewrite append_assoc.
Qed.

Lemma split_on_field sep (cur a b : string) :
  Url.contains sep a = false ->
  split_on sep cur (a ++ String sep b) = (cur ++ a) :: split_on sep "" b.
Proof.
  revert cur. induction a as [|c a IH]; intros cur; simpl.
  - rewrite Ascii.eqb_refl. now rewrite append_empty_r.
  - destruct (Ascii.eqb c sep); simpl; [discriminate|].
    intros H. rewrite IH by assumption. now rewrite append_assoc.
Qed.

Lemma truthy_VStr (s : string) : s <> "" -> truthy (VStr s) = true.
Proof. intros H. simpl. now destruct (String.eqb_spec s ""). Qed.

(** Decide [unsafe_key] on the literal keys of the goal. *)
Ltac literal_keys :=
  repeat match goal with
    | |- context [Lodash.unsafe_key ?k] =>
        let b := eval vm_compute in (Lodash.unsafe_key k) in
        match b with
        | true => change (Lodash.unsafe_key k) with true
        | false => change (Lodash.unsafe_key k) with false
        end
    end.

Ltac unfold_pickBy :=
  unfold snakePipe, Lodash.pickBy, Lodash.kept; cbn [filter snd fst];
  literal_keys.

Section AuthorizationUrl.

Hypothesis snake_clientId : snakeCase "clientId" = "client_id".
Hypothesis snake_scope : snakeCase "scope" = "scope".
Hypothesis snake_redirectUri : snakeCase "redirectUri" = "redirect_uri".
Hypothesis snake_state : snakeCase "state" = "state".

Lemma query_default (c s : string) :
  c <> "" -> s <> "" ->
  snakePipe [("clientId", VStr c); ("scope", VStr s);
             ("redirectUri", VUndefined); ("state", VUndefined)]
  = [("client_id", VStr c); ("scope", VStr s)].
Proof using snake_clientId snake_scope.
  intros Hc Hs. unfold_pickBy.
  rewrite (truthy_VStr c Hc), (truthy_VStr s Hs).
  cbn [truthy andb negb keys map fst fold_left].
  rewrite snake_clientId, snake_scope. reflexivity.
Qed.

Lemma query_full (c s r st : string) :
  c <> "" -> s <> "" -> r <> "" -> st <> "" ->
  snakePipe [("clientId", VStr c); ("scope", VStr s);
             ("redirectUri", VStr r); ("state", VStr st)]
  = [("client_id", VStr c); ("scope", VStr s);
     ("redirect_uri", VStr r); ("state", VStr st)].
Proof using snake_clientId snake_scope snake_redirectUri snake_state.
  intros Hc Hs Hr Hst. unfold_pickBy.
  rewrite (truthy_VStr c Hc), (truthy_VStr s Hs), (truthy_VStr r Hr),
    (truthy_VStr st Hst).
  cbn [andb negb keys map fst fold_left].
  rewrite snake_clientId, snake_scope, snake_redirectUri, snake_state.
  reflexivity.
Qed.

Lemma query_without_clientId (s r st : string) :
  s <> "" -> r <> "" -> st <> "" ->
  snakePipe [("clientId", VStr ""); ("scope", VStr s);
             ("redirectUri", VStr r); ("state", VStr st)]
  = [("scope", VStr s); ("redirect_uri", VStr r); ("state", VStr st)].
Proof using snake_scope snake_redirectUri snake_state.
  intros Hs Hr Hst. unfold_pickBy.
  rewrite (truthy_VStr s Hs), (truthy_VStr r Hr), (truthy_VStr st Hst).
  cbn [truthy andb negb String.eqb keys map fst fold_left].
  rewrite snake_scope, snake_redirectUri, snake_state.
  reflexivity.
Qed.

End AuthorizationUrl.

(** The three guarded list endpoints pass their [Pager] on as [params],
    untouched, and send no body. *)
Lemma pager_params_as_given (this : Dribbble) (p : Pager) :
  accessToken this <> "" ->
  Forall (fun m : Pager -> M AxiosPromise =>
            exists r, issues (m p) this r /\
                      req_params r = Some (Pager_obj p) /\ req_body r = "")
    [getLikes; getUserProject; getUserShots].
Proof.
  intros Ht. repeat constructor; eexists; unfold issues;
    (split; [unfold_methods; rewrite guard_passes by assumption;
             apply client_request_issues | split; reflexivity]).
Qed.

Lemma getAuthorizationUrl_format (scope_ redirectUri state : option string)
    (this : Dribbble) :
  getAuthorizationUrl scope_ redirectUri state this =
  (Returned
     (let q := Querystring.stringify
                 (snakePipe [("clientId", VStr (clientId this));
                             ("scope", VStr (scope_or scope_ (scope this)));
                             ("redirectUri", optional redirectUri);
                             ("state", optional state)]) in
      "https://dribbble.com/oauth/authorize"
      ++ (if Url.nonempty q then "?" ++ q else "")),
   this).
Proof.
  unfold getAuthorizationUrl, ret. now rewrite format_authorize.
Qed.

(** C5, as the code has it: for a client whose [clientId] c and [scope] s
    are not empty, [getAuthorizationUrl()] returns the OAuth origin, the
    path [/oauth/authorize] and the query made of exactly the two fields
    [client_id] and [scope] with the percent-encoded c and s, hence no
    [redirect_uri] and no [state]; for every client,
    [getAuthorizationUrl("upload", "https://app/cb", "xyz")] returns a URL
    whose query is [scope=upload], [redirect_uri=https%3A%2F%2Fapp%2Fcb]
    and [state=xyz], after the [client_id] field when c is not empty.
    Neither call changes the client: no request is sent. *)
Theorem getAuthorizationUrl_spec (this : Dribbble) :
  snakeCase "clientId" = "client_id" ->
  snakeCase "scope" = "scope" ->
  snakeCase "redirectUri" = "redirect_uri" ->
  snakeCase "state" = "state" ->
  let c := Querystring.escape (clientId this) in
  let s := Querystring.escape (scope this) in
  let u1 := "https://dribbble.com/oauth/authorize?client_id=" ++ c
            ++ "&scope=" ++ s in
  let id := if String.eqb (clientId this) "" then ""
            else "client_id=" ++ c ++ "&" in
  let u2 := "https://dribbble.com/oauth/authorize?" ++ id
            ++ "scope=upload&redirect_uri=https%3A%2F%2Fapp%2Fcb&state=xyz" in
  (clientId this <> "" -> scope this <> "" ->
   getAuthorizationUrl None None None this = (Returned u1, this) /\
   query_fields u1 = ["client_id=" ++ c; "scope=" ++ s]) /\
  getAuthorizationUrl (Some "upload") (Some "https://app/cb") (Some "xyz") this
    = (Returned u2, this) /\
  query_fields u2 =
    List.app
      (if String.eqb (clientId this) "" then [] else ["client_id=" ++ c])
      ["scope=upload"; "redirect_uri=https%3A%2F%2Fapp%2Fcb"; "state=xyz"].
Proof.
  intros H1 H2 H3 H4 c s u1 id u2.
  destruct (escape_clean (clientId this)) as (_ & Hc & _). fold c in Hc.
  destruct (escape_clean (scope this)) as (_ & Hs & _). fold s in Hs.
  split; [|split].
  - intros Hid Hsc. split.
    + rewrite getAuthorizationUrl_format. cbn [scope_or optional].
      rewrite (query_default H1 H2 _ _ Hid Hsc). reflexivity.
    + unfold query_fields, u1.
      cbn [after_char split_on append Ascii.eqb Bool.eqb].
      rewrite (split_on_field "&" _ c _ Hc).
      cbn [split_on append Ascii.eqb Bool.eqb].
      now rewrite (split_on_clean "&" _ s Hs).
  - rewrite getAuthorizationUrl_format. cbn [scope_or optional String.eqb Ascii.eqb Bool.eqb].
    unfold u2, id.
    destruct (String.eqb_spec (clientId this) "") as [E|Hne].
    + rewrite E.
      rewrite (query_without_clientId H2 H3 H4 "upload" "https://app/cb" "xyz")
        by discriminate.
      reflexivity.
    + rewrite (query_full H1 H2 H3 H4 _ "upload" "https://app/cb" "xyz" Hne)
        by discriminate.
      rewrite !append_assoc. reflexivity.
  - unfold u2, id.
    destruct (String.eqb_spec (clientId this) "") as [E|Hne].
    + reflexivity.
    + unfold query_fields.
      cbn [after_char split_on append Ascii.eqb Bool.eqb].
      rewrite append_assoc.
      cbn [append].
      rewrite (split_on_field "&" _ c _ Hc).
      reflexivity.
Qed.

(** ** More on the two pipes *)

Lemma length_replace k v (o : obj) :
  List.length (Js.replace k v o) = List.length o.
Proof.
  induction o as [|[k' v'] o IH]; simpl; [reflexivity|].
  destruct (String.eqb k' k); simpl; [reflexivity | now rewrite IH].
Qed.

Lemma length_set k v (o : obj) :
  List.length (Js.set k v o)
  = if Js.has k o then List.length o else S (List.length o).
Proof.
  destruct (Js.has k o) eqn:Eh.
  - unfold Js.set. rewrite Eh. apply length_replace.
  - assert (Hni : ~ In k (keys o)).
    { intros H. apply has_true_iff in H. congruence. }
    destruct (set_new_split k v o Hni) as (o1 & o2 & -> & ->).
    rewrite !length_app. simpl. lia.
Qed.

Lemma rename_length f g ks acc :
  (List.length (rename f g ks acc) <= List.length acc + List.length ks)%nat.
Proof.
  revert acc. induction ks as [|k ks IH]; intros acc; simpl; [lia|].
  change (rename f g (k :: ks) acc)
    with (rename f g ks (Js.set (f k) (g k) acc)).
  specialize (IH (Js.set (f k) (g k) acc)). rewrite length_set in IH.
  destruct (Js.has (f k) acc); lia.
Qed.

(** When the new names are pairwise distinct and none is an array index,
    the loop writes them in the order of the keys. *)
Lemma rename_ordered f g ks :
  NoDup (map f ks) ->
  (forall k, In k ks -> Js.array_index (f k) = None) ->
  rename f g ks [] = map (fun k => (f k, g k)) ks.
Proof.
  induction ks as [|x ks IH] using rev_ind; intros Hnd Hidx; [reflexivity|].
  rewrite rename_snoc, map_app. simpl.
  rewrite map_app in Hnd. simpl in Hnd.
  apply NoDup_remove in Hnd as (Hnd & Hni). rewrite app_nil_r in Hnd, Hni.
  rewrite IH; [|assumption|intros k Hk; apply Hidx, in_or_app; now left].
  unfold Js.set.
  destruct (Js.has (f x) (map (fun k => (f k, g k)) ks)) eqn:Eh.
  - apply has_true_iff in Eh. unfold keys in Eh. rewrite map_map in Eh.
    simpl in Eh. contradiction.
  - rewrite (Hidx x) by (apply in_or_app; right; now left). reflexivity.
Qed.

Lemma map_get_keys (data : obj) (f : string -> string) :
  NoDup (keys data) ->
  forall sub : obj, incl sub data ->
  map (fun k => (f k, Js.get data k)) (keys sub)
  = map (fun kv => (f (fst kv), snd kv)) sub.
Proof.
  intros Hnd sub. induction sub as [|[k v] sub IH]; intros Hincl;
    [reflexivity|].
  simpl. rewrite (get_In data k v Hnd) by (apply Hincl; now left).
  f_equal. apply IH. intros kv Hin. apply Hincl. now right.
Qed.

Lemma pickBy_incl (data : obj) : incl (Lodash.pickBy data) data.
Proof. intros [k v] H. now apply pickBy_In in H. Qed.

Lemma pickBy_nil_iff (data : obj) :
  Lodash.pickBy data = [] <->
  forall k v, In (k, v) data -> Lodash.kept k v = false.
Proof.
  induction data as [|[k v] data IH]; simpl.
  - split; [intros _ k v [] | reflexivity].
  - destruct (Lodash.kept k v) eqn:Et.
    + split; [discriminate|]. intros H.
      specialize (H k v (or_introl eq_refl)). congruence.
    + rewrite IH. split.
      * intros H k2 v2 [E|Hin]; [injection E as <- <-; exact Et | now apply (H k2)].
      * intros H k2 v2 Hin. apply (H k2). now right.
Qed.

Lemma length_pickBy (data : obj) :
  (List.length (Lodash.pickBy data) <= List.length data)%nat.
Proof. apply filter_length_le. Qed.

(** X1: the inbound transform [camelPipe] filters nothing: the keys of
    its result are exactly the camelCase forms of all the keys of its
    argument, falsy values included; every property of the result is a
    property of the argument under its camelCase name with the value
    unchanged; a key keeps its value whenever no later key has the same
    camelCase form; and the result never has more properties than the
    argument. *)
Theorem camelPipe_spec (data : obj) :
  NoDup (keys data) ->
  (forall k', In k' (keys (camelPipe data)) <-> In k' (map camelCase (keys data))) /\
  (forall k' v', Js.lookup k' (camelPipe data) = Some v' ->
     exists k, In (k, v') data /\ camelCase k = k') /\
  (forall l1 k v l2, data = (l1 ++ (k, v) :: l2)%list ->
     (forall k2, In k2 (keys l2) -> camelCase k2 <> camelCase k) ->
     Js.lookup (camelCase k) (camelPipe data) = Some v) /\
  (List.length (camelPipe data) <= List.length data)%nat.
Proof.
  intros Hnd. rewrite camelPipe_rename. split; [|split; [|split]].
  - intros k'. rewrite rename_keys_iff, in_map_iff. split.
    + intros [[]|(k & Hin & E)]. now exists k.
    + intros (k & E & Hin). right. now exists k.
  - intros k' v' H.
    apply rename_lookup_origin in H as [H|(k & Hin & E & Hg)]; [discriminate|].
    apply keys_In_pair in Hin as (v & Hin).
    rewrite (get_In data k v Hnd Hin) in Hg. subst v'. now exists k.
  - intros l1 k v l2 -> Hlast.
    unfold keys at 1. rewrite map_app. simpl.
    rewrite rename_lookup_last by exact Hlast.
    f_equal. apply get_In; [assumption|]. apply in_or_app. right. now left.
  - pose proof (rename_length camelCase (Js.get data) (keys data) []) as H.
    unfold keys in H at 2. rewrite length_map in H. exact H.
Qed.

(** X2: both pipes keep the order of the properties: when the new names
    of the retained keys are pairwise distinct and none of them is an
    array index, [snakePipe] returns the properties [pickBy] keeps (the
    truthy ones whose key is not [constructor], [prototype] or
    [__proto__]) in their order, each under its snake_case name, and
    [camelPipe] returns all the properties in their order, each under
    its camelCase name. *)
Theorem pipes_keep_order (data : obj) :
  NoDup (keys data) ->
  (NoDup (map snakeCase (keys (Lodash.pickBy data))) ->
   (forall k, In k (keys (Lodash.pickBy data)) ->
              Js.array_index (snakeCase k) = None) ->
   snakePipe data
   = map (fun kv => (snakeCase (fst kv), snd kv)) (Lodash.pickBy data)) /\
  (NoDup (map camelCase (keys data)) ->
   (forall k, In k (keys data) -> Js.array_index (camelCase k) = None) ->
   camelPipe data = map (fun kv => (camelCase (fst kv), snd kv)) data).
Proof.
  intros Hnd. split; intros Hf Hidx.
  - rewrite snakePipe_rename, rename_ordered by assumption.
    apply map_get_keys; [assumption | apply pickBy_incl].
  - rewrite camelPipe_rename, rename_ordered by assumption.
    apply map_get_keys; [assumption | apply incl_refl].
Qed.

(** X3: [snakePipe] returns the empty mapping exactly when every
    property of its argument has a falsy value or one of the keys
    [constructor], [prototype], [__proto__], and its result never has
    more properties than [pickBy] keeps of the argument. *)
Theorem snakePipe_empty_iff (data : obj) :
  (snakePipe data = [] <->
   forall k v, In (k, v) data ->
               truthy v = false \/ Lodash.unsafe_key k = true) /\
  (List.length (snakePipe data) <= List.length (Lodash.pickBy data))%nat /\
  (List.length (snakePipe data) <= List.length data)%nat.
Proof.
  assert (Hlen : (List.length (snakePipe data)
                  <= List.length (Lodash.pickBy data))%nat).
  { pose proof (rename_length snakeCase (Js.get data)
                  (keys (Lodash.pickBy data)) []) as H.
    unfold keys in H at 2. rewrite length_map in H. exact H. }
  split; [|split; [exact Hlen|]].
  - split.
    + intros E k v Hin.
      destruct (truthy v) eqn:Et; [|now left].
      destruct (Lodash.unsafe_key k) eqn:Eu; [now right|].
      assert (H : In (snakeCase k) (keys (snakePipe data))).
      { apply snakePipe_keys. exists k, v. repeat split; try assumption.
        now apply kept_true_iff. }
      rewrite E in H. destruct H.
    + intros H. rewrite snakePipe_rename.
      replace (Lodash.pickBy data) with (@nil (string * value));
        [reflexivity|].
      symmetry. apply pickBy_nil_iff. intros k v Hin.
      unfold Lodash.kept. destruct (H k v Hin) as [-> | ->];
        [reflexivity | apply andb_false_r].
  - pose proof (length_pickBy data). lia.
Qed.

(** X4: running [snakePipe] on its own result changes nothing of what
    the result maps, provided [snakeCase] leaves every key of that
    result as it is and none of those keys is [constructor],
    [prototype] or [__proto__], which the second run would drop. *)
Theorem snakePipe_twice (data : obj) :
  NoDup (keys data) ->
  (forall k, In k (keys (snakePipe data)) ->
             snakeCase k = k /\ Lodash.unsafe_key k = false) ->
  forall k, Js.lookup k (snakePipe (snakePipe data))
            = Js.lookup k (snakePipe data).
Proof.
  intros Hnd Hfix' k.
  assert (Hfix : forall k, In k (keys (snakePipe data)) -> snakeCase k = k)
    by (intros k0 H; now apply Hfix').
  assert (Hkept : forall k v, In (k, v) (snakePipe data) ->
                              Lodash.kept k v = true).
  { intros k0 v0 Hin. apply kept_true_iff. split.
    - apply (In_lookup k0 v0 _ (snakePipe_NoDup data)) in Hin.
      rewrite snakePipe_rename in Hin.
      apply rename_lookup_origin in Hin as [H|(k1 & Hin & _ & Hg)];
        [discriminate|].
      apply pickBy_keys_In in Hin as (v1 & Hin & Hk).
      apply kept_true_iff in Hk as (Ht & _).
      rewrite (get_In data k1 v1 Hnd Hin) in Hg. now subst.
    - apply Hfix'. apply keys_In_pair. now exists v0. }
  rewrite (snakePipe_rename (snakePipe data)).
  rewrite (pickBy_all_kept _ Hkept).
  destruct (in_dec string_dec k (keys (snakePipe data))) as [Hin|Hni].
  - rewrite <- (Hfix k Hin) at 1.
    rewrite rename_lookup_unique.
    + unfold Js.get. destruct (Js.lookup k (snakePipe data)) eqn:E;
        [reflexivity|].
      apply lookup_None_iff in E. contradiction.
    + assumption.
    + intros k2 Hk2 E. rewrite (Hfix k2 Hk2), (Hfix k Hin) in E. now subst.
  - apply lookup_None_iff in Hni as Hn. rewrite Hn.
    apply lookup_None_iff. intros H.
    apply rename_keys_iff in H as [[]|(k2 & Hk2 & E)].
    rewrite (Hfix k2 Hk2) in E. subst. contradiction.
Qed.

(** ** What each call does *)

Lemma guarded_sends (cfg : AxiosRequestConfig) (this : Dribbble) :
  accessToken this <> "" ->
  promise (enforceAuthorized ;; client_request cfg) this
    = (Returned (RPromise (outgoing this cfg)), logged (outgoing this cfg) this).
Proof.
  intros Hne. apply promise_issues. unfold issues.
  rewrite guard_passes by assumption. apply client_request_issues.
Qed.

(** One summary of the class: a call with no configuration returns a
    string and touches nothing; a guarded call without a token throws;
    every other call sends the request of its configuration. *)
Lemma invoke_request (c : call) (this : Dribbble) :
  match request_of this c with
  | None => exists u, invoke c this = (Returned (RString u), this)
  | Some cfg =>
      if goes_out this c
      then invoke c this
           = (Returned (RPromise (outgoing this cfg)),
              logged (outgoing this cfg) this)
      else invoke c this = (Threw Unauthorized, this)
  end.
Proof.
  unfold goes_out.
  destruct c; cbn [request_of protected negb orb];
    try (eexists; reflexivity); try reflexivity.
  all: destruct (String.eqb_spec (accessToken this) "") as [E|Hne];
    cbn [negb]; cbn [invoke]; unfold_methods;
    [ apply promise_throws; now apply guard_fails
    | now apply guarded_sends ].
Qed.

Lemma goes_out_logged (this : Dribbble) (r : Request) (c : call) :
  goes_out (logged r this) c = goes_out this c.
Proof. unfold goes_out. now destruct c. Qed.

(** X5: a method that goes through the transport, that is every method
    but [getAuthorizationUrl], throws exactly when it is guarded and the
    stored token is empty, and what it throws is then the [DribbbleError]
    with code 403; in every other case it returns its promise, and the
    one request of the call has been added to the log. *)
Theorem invoke_throws_iff (c : call) (this : Dribbble) :
  request_of this c <> None ->
  (forall e, fst (invoke c this) = Threw e <->
             protected c = true /\ accessToken this = "" /\ e = Unauthorized) /\
  ((protected c = true /\ accessToken this = "") \/
   exists cfg, request_of this c = Some cfg /\
               invoke c this = (Returned (RPromise (outgoing this cfg)),
                                logged (outgoing this cfg) this)).
Proof.
  intros Hreq.
  pose proof (invoke_request c this) as H. unfold goes_out in *.
  destruct (request_of this c) as [cfg|] eqn:Er; [|contradiction].
  destruct (protected c) eqn:Ep;
    destruct (String.eqb_spec (accessToken this) "") as [E|Hne];
    cbn [negb orb] in H; rewrite H; cbn [fst snd]; split;
    try (right; exists cfg; split; reflexivity);
    try (left; split; [reflexivity | assumption]).
  all: intros e; split;
    [ intros He; try discriminate He; injection He as <-; now repeat split
    | intros (Hp & Ht & ->); try discriminate Hp; try contradiction;
      reflexivity ].
Qed.

(** X6: on a client whose base URL is the API endpoint, a call that goes
    out is sent with the verb of its method to the API endpoint followed
    by the path of the method, the identifiers inserted verbatim;
    [exchangeAuthorizationCode] is sent to the token endpoint of the
    OAuth host. *)
Theorem endpoint_table (c : call) (this : Dribbble) (m : Method) (u : string) :
  baseURL (client this) = API_ENDPOINT ->
  goes_out this c = true ->
  endpoint c = Some (m, u) ->
  exists r, invoke c this = (Returned (RPromise r), logged r this) /\
            req_method r = m /\ req_url r = u.
Proof.
  intros Hbase Hgo He.
  pose proof (invoke_request c this) as H. rewrite Hgo in H.
  destruct (request_of this c) as [cfg|] eqn:Er;
    [|unfold goes_out in Hgo; rewrite Er in Hgo; discriminate].
  exists (outgoing this cfg). split; [exact H|].
  unfold outgoing. cbn [fst Axios.request req_method req_url]. rewrite Hbase.
  destruct c; cbn [request_of] in Er; try discriminate Er;
    injection Er as <-; cbn [endpoint] in He; injection He as <- <-;
    split; reflexivity.
Qed.

(** ** Histories from any state *)

Lemma perform_cases (a : action) (d : Dribbble) :
  (exists t, a = SetAccessToken t /\ snd (perform a d) = snd (setAccessToken t d)) \/
  (exists c, a = Invoke c /\ snd (perform a d) = d) \/
  (exists c cfg, a = Invoke c /\ request_of d c = Some cfg /\
                 goes_out d c = true /\
                 snd (perform a d) = logged (outgoing d cfg) d).
Proof.
  destruct a as [t|c].
  - left. exists t. split; reflexivity.
  - right. cbn [perform].
    pose proof (invoke_request c d) as H.
    destruct (request_of d c) as [cfg|] eqn:Er.
    + destruct (goes_out d c) eqn:Hgo.
      * right. exists c, cfg. repeat split; try assumption. now rewrite H.
      * left. exists c. split; [reflexivity | now rewrite H].
    + destruct H as (u & H). left. exists c. split; [reflexivity|].
      now rewrite H.
Qed.

(** Every request a history sends is the request of some call, built in
    a state that satisfies whatever the steps of the history preserve. *)
Lemma run_sent_inv (I : Dribbble -> Prop) (history : list action) :
  (forall t d, In (SetAccessToken t) history -> I d ->
               I (snd (setAccessToken t d))) ->
  (forall r d, I d -> I (logged r d)) ->
  forall this, I this ->
  I (run history this) /\
  exists new,
    sent (client (run history this)) = (sent (client this) ++ new)%list /\
    (List.length new <= List.length history)%nat /\
    Forall (fun r => exists d c cfg,
                I d /\ request_of d c = Some cfg /\ goes_out d c = true /\
                r = outgoing d cfg) new.
Proof.
  intros Hset Hlog.
  induction history as [|a history IH]; intros this HI; cbn [run fold_left].
  - split; [exact HI|]. exists []. rewrite app_nil_r.
    repeat split; constructor.
  - fold (run history (snd (perform a this))).
    assert (Hset' : forall t d, In (SetAccessToken t) history -> I d ->
                                I (snd (setAccessToken t d))).
    { intros t d Hin. apply Hset. now right. }
    specialize (IH Hset').
    destruct (perform_cases a this)
      as [(t & -> & E)|[(c & -> & E)|(c & cfg & -> & Er & Hgo & E)]];
      rewrite E.
    + destruct (IH (snd (setAccessToken t this)))
        as (HI' & new & Es & Hl & Hn).
      { apply Hset; [now left | exact HI]. }
      split; [exact HI'|]. exists new. repeat split.
      * exact Es.
      * simpl. lia.
      * exact Hn.
    + destruct (IH this HI) as (HI' & new & Es & Hl & Hn).
      split; [exact HI'|]. exists new. repeat split; try assumption.
      simpl. lia.
    + destruct (IH (logged (outgoing this cfg) this) (Hlog _ _ HI))
        as (HI' & new & Es & Hl & Hn).
      split; [exact HI'|]. exists (outgoing this cfg :: new). repeat split.
      * rewrite Es. cbn [logged with_client client sent].
        now rewrite <- app_assoc.
      * simpl. lia.
      * constructor; [|exact Hn]. now exists this, c, cfg.
Qed.

(** X7: whatever is called on a client made by the constructor, and with
    whatever arguments, every request it sends is addressed either below
    [https://api.dribbble.com/v2/] or to
    [https://dribbble.com/oauth/token]: an identifier put into a path
    cannot point a request anywhere else. *)
Theorem requests_stay_on_known_hosts
    (clientConfig : Client) (history : list action) :
  Forall (fun r =>
            String.prefix "https://api.dribbble.com/v2/" (req_url r) = true \/
            req_url r = "https://dribbble.com/oauth/token")
    (sent (client (run history (new_Dribbble clientConfig)))).
Proof.
  destruct (run_sent_inv (fun d => baseURL (client d) = API_ENDPOINT) history)
    with (this := new_Dribbble clientConfig)
    as (_ & new & Es & _ & Hn);
    [intros t d _ H; exact H | intros r d H; exact H | reflexivity |].
  rewrite Es. cbn [new_Dribbble client sent app].
  eapply Forall_impl; [|exact Hn].
  intros r (d & c & cfg & Hbase & Er & _ & ->).
  unfold outgoing. cbn [fst Axios.request req_url]. rewrite Hbase.
  destruct c; cbn [request_of] in Er; try discriminate Er;
    injection Er as <-; cbn [url];
    first [left; reflexivity | right; reflexivity].
Qed.

(** X8: the configuration is fixed at construction: after any history of
    calls the client has the [clientId], [clientSecret] and [scope] it
    was constructed with, the base URL of the API and the POST default
    header of the constructor. *)
Theorem configuration_is_immutable
    (clientConfig : Client) (history : list action) :
  let d := run history (new_Dribbble clientConfig) in
  clientId d = cfg_clientId clientConfig /\
  clientSecret d = cfg_clientSecret clientConfig /\
  scope d = cfg_scope clientConfig /\
  baseURL (client d) = API_ENDPOINT /\
  headers_post (client d)
    = [("Content-Type", VStr "application/x-www-form-urlencoded")].
Proof.
  destruct (run_sent_inv
              (fun d => clientId d = cfg_clientId clientConfig /\
                        clientSecret d = cfg_clientSecret clientConfig /\
                        scope d = cfg_scope clientConfig /\
                        baseURL (client d) = API_ENDPOINT /\
                        headers_post (client d)
                        = [("Content-Type",
                            VStr "application/x-www-form-urlencoded")])
              history)
    with (this := new_Dribbble clientConfig) as (H & _).
  - intros t d _ H. exact H.
  - intros r d H. exact H.
  - repeat split.
  - exact H.
Qed.

(** X10: the log of the transport only grows, by one request for each
    call that goes out: after a sequence of calls the log is the old log
    followed by as many requests as there are calls in the sequence that
    are not [getAuthorizationUrl] and are either unguarded or made with
    a non-empty token. *)
Theorem requests_counted (calls : list call) (this : Dribbble) :
  exists new,
    sent (client (run (map Invoke calls) this))
      = (sent (client this) ++ new)%list /\
    List.length new = List.length (filter (goes_out this) calls).
Proof.
  revert this. induction calls as [|c calls IH]; intros this;
    cbn [map run fold_left perform filter].
  - exists []. now rewrite app_nil_r.
  - fold (run (map Invoke calls) (snd (invoke c this))).
    pose proof (invoke_request c this) as H.
    destruct (goes_out this c) eqn:Hgo.
    + destruct (request_of this c) as [cfg|] eqn:Er;
        [|unfold goes_out in Hgo; rewrite Er in Hgo; discriminate].
      rewrite H. cbn [snd].
      destruct (IH (logged (outgoing this cfg) this)) as (new & Es & Hl).
      exists (outgoing this cfg :: new). split.
      * rewrite Es. cbn [logged with_client client sent].
        now rewrite <- app_assoc.
      * cbn [List.length]. rewrite Hl. reflexivity.
    + assert (E : snd (invoke c this) = this).
      { destruct (request_of this c) as [cfg|]; [now rewrite H|].
        destruct H as (u & ->). reflexivity. }
      rewrite E. apply IH.
Qed.

(** X11: on a client made by the constructor, after any history, every
    POST request carries the header
    [Content-Type: application/x-www-form-urlencoded] and the body made
    by [transformRequest], and every GET or DELETE request carries no
    [Content-Type] and the empty body. *)
Theorem content_type_and_body
    (clientConfig : Client) (history : list action) :
  Forall (fun r =>
            match req_method r with
            | POST =>
                Js.lookup "Content-Type" (req_headers r)
                = Some (VStr "application/x-www-form-urlencoded")
            | _ =>
                Js.lookup "Content-Type" (req_headers r) = None /\
                req_body r = ""
            end)
    (sent (client (run history (new_Dribbble clientConfig)))).
Proof.
  destruct (run_sent_inv
              (fun d => headers_post (client d)
                        = [("Content-Type",
                            VStr "application/x-www-form-urlencoded")] /\
                        Js.lookup "Content-Type" (headers_common (client d))
                        = None)
              history)
    with (this := new_Dribbble clientConfig) as (_ & new & Es & _ & Hn).
  - intros t d _ (Hp & Hc). split; [exact Hp|].
    cbn [setAccessToken ret snd client headers_common].
    rewrite lookup_set_other by discriminate. exact Hc.
  - intros r d H. exact H.
  - split; reflexivity.
  - rewrite Es. cbn [new_Dribbble client sent app].
    eapply Forall_impl; [|exact Hn].
    intros r (d & c & cfg & (Hp & Hc) & Er & _ & ->).
    unfold outgoing.
    cbn [fst Axios.request req_method req_headers req_body method_headers].
    destruct c; cbn [request_of] in Er; try discriminate Er;
      injection Er as <-; cbn [method data method_headers];
      try (rewrite Hp; unfold merge; cbn [fold_left fst snd];
           apply lookup_set_same);
      (split; [unfold merge; cbn [fold_left]; exact Hc | reflexivity]).
Qed.


(** ** More on the OAuth helpers and the bodies of requests *)

Lemma rename_ext f g g' ks acc :
  (forall k, In k ks -> g k = g' k) ->
  rename f g ks acc = rename f g' ks acc.
Proof.
  revert acc. induction ks as [|k ks IH]; intros acc H; [reflexivity|].
  change (rename f g (k :: ks) acc)
    with (rename f g ks (Js.set (f k) (g k) acc)).
  change (rename f g' (k :: ks) acc)
    with (rename f g' ks (Js.set (f k) (g' k) acc)).
  rewrite (H k) by now left. apply IH. intros k2 Hk2. apply H. now right.
Qed.

Lemma pickBy_pickBy (data : obj) :
  Lodash.pickBy (Lodash.pickBy data) = Lodash.pickBy data.
Proof.
  apply pickBy_all_kept. intros k v H. now apply pickBy_In in H.
Qed.

Lemma pickBy_NoDup (data : obj) :
  NoDup (keys data) -> NoDup (keys (Lodash.pickBy data)).
Proof.
  induction data as [|[k v] data IH]; intros Hnd; [constructor|].
  simpl in *. inversion Hnd as [|? ? Hni Hnd']; subst.
  destruct (Lodash.kept k v); [|now apply IH].
  simpl. constructor; [|now apply IH].
  intros Hin. apply Hni. apply keys_In_pair in Hin as (v' & Hin).
  apply pickBy_In in Hin as (Hin & _). apply keys_In_pair. now exists v'.
Qed.

Lemma snakePipe_on_kept (data : obj) :
  NoDup (keys data) ->
  snakePipe data = snakePipe (Lodash.pickBy data).
Proof.
  intros Hnd. rewrite !snakePipe_rename, pickBy_pickBy.
  apply rename_ext. intros k Hk.
  apply pickBy_keys_In in Hk as (v & Hin & Hk).
  rewrite (get_In data k v Hnd Hin). symmetry.
  apply get_In; [now apply pickBy_NoDup | now apply pickBy_In].
Qed.

(** X13: [snakePipe] does not see the properties [pickBy] drops, the
    falsy ones above all: on a mapping it returns what it returns on the
    part of the mapping that [pickBy] keeps. *)
Theorem snakePipe_ignores_falsy (data : obj) :
  NoDup (keys data) ->
  snakePipe data = snakePipe (Lodash.pickBy data).
Proof. apply snakePipe_on_kept. Qed.

(** X14: the result of [getAuthorizationUrl] depends on the client
    through [clientId] and [scope] only: two clients that agree on these
    two get the same result for the same arguments, whatever their
    secrets, their tokens and the state of their transport; the call
    leaves the client as it was, and a URL it returns starts with
    [https://dribbble.com/oauth/authorize]. *)
Theorem getAuthorizationUrl_reads
    (scope_ redirectUri state : option string) (this this' : Dribbble) :
  clientId this' = clientId this ->
  scope this' = scope this ->
  fst (getAuthorizationUrl scope_ redirectUri state this')
    = fst (getAuthorizationUrl scope_ redirectUri state this) /\
  snd (getAuthorizationUrl scope_ redirectUri state this) = this /\
  forall u, fst (getAuthorizationUrl scope_ redirectUri state this) = Returned u ->
            String.prefix "https://dribbble.com/oauth/authorize" u = true.
Proof.
  intros Hc Hs. rewrite !getAuthorizationUrl_format, Hc, Hs.
  cbn [fst snd]. repeat split.
  intros u [= <-]. cbv zeta. destruct (Url.nonempty _); reflexivity.
Qed.

(** X15: an argument of [getAuthorizationUrl] that is the empty string
    counts as an argument that was not given: an empty [scope] gives way
    to the scope of the client, an empty [redirectUri] or [state] is left
    out of the query. *)
Theorem getAuthorizationUrl_empty_arguments
    (scope_ redirectUri state : option string) (this : Dribbble) :
  getAuthorizationUrl (Some "") redirectUri state this
    = getAuthorizationUrl None redirectUri state this /\
  getAuthorizationUrl scope_ (Some "") state this
    = getAuthorizationUrl scope_ None state this /\
  getAuthorizationUrl scope_ redirectUri (Some "") this
    = getAuthorizationUrl scope_ redirectUri None this.
Proof.
  assert (Hnd : forall a b c d : value,
             NoDup (keys [("clientId", a); ("scope", b);
                          ("redirectUri", c); ("state", d)])).
  { intros. repeat constructor; simpl; intros H;
      repeat (destruct H as [H|H]; [discriminate H|]); exact H. }
  assert (E : forall (a b : value) (c c' d d' : value),
             truthy c = truthy c' -> (truthy c = true -> c = c') ->
             truthy d = truthy d' -> (truthy d = true -> d = d') ->
             snakePipe [("clientId", a); ("scope", b);
                        ("redirectUri", c); ("state", d)]
             = snakePipe [("clientId", a); ("scope", b);
                          ("redirectUri", c'); ("state", d')]).
  { intros a b c c' d d' Hc Hcc Hd Hdd.
    rewrite (snakePipe_on_kept _ (Hnd a b c d)),
      (snakePipe_on_kept _ (Hnd a b c' d')).
    f_equal. unfold Lodash.pickBy, Lodash.kept. cbn [filter snd fst].
    rewrite <- Hc, <- Hd.
    destruct (truthy c) eqn:Ec; [rewrite (Hcc eq_refl)|];
      (destruct (truthy d) eqn:Ed; [now rewrite (Hdd eq_refl) | reflexivity]). }
  split; [reflexivity|].
  split; rewrite !getAuthorizationUrl_format; cbn [optional].
  - rewrite (E _ _ (VStr "") VUndefined (optional state) (optional state));
      try reflexivity; intros H; try reflexivity; discriminate H.
  - rewrite (E _ _ (optional redirectUri) (optional redirectUri)
               (VStr "") VUndefined);
      try reflexivity; intros H; try reflexivity; discriminate H.
Qed.

Section TokenRequest.

Hypothesis snake_clientId : snakeCase "clientId" = "client_id".
Hypothesis snake_clientSecret : snakeCase "clientSecret" = "client_secret".
Hypothesis snake_code : snakeCase "code" = "code".
Hypothesis snake_redirectUri : snakeCase "redirectUri" = "redirect_uri".

Lemma token_body (c s code_ : string) (r : value) :
  c <> "" -> s <> "" ->
  snakePipe [("clientId", VStr c); ("clientSecret", VStr s);
             ("code", VStr code_); ("redirectUri", r)]
  = ([("client_id", VStr c); ("client_secret", VStr s)]
     ++ (if truthy (VStr code_) then [("code", VStr code_)] else [])
     ++ (if truthy r then [("redirect_uri", r)] else []))%list.
Proof using snake_clientId snake_clientSecret snake_code snake_redirectUri.
  intros Hc Hs. unfold_pickBy.
  rewrite (truthy_VStr c Hc), (truthy_VStr s Hs).
  destruct (truthy (VStr code_)), (truthy r);
    cbn [andb negb keys map fst fold_left];
    rewrite ?snake_clientId, ?snake_clientSecret, ?snake_code,
      ?snake_redirectUri;
    reflexivity.
Qed.

End TokenRequest.

Lemma exchange_sent_body (code_ : string) (redirectUri : option string)
    (this : Dribbble) :
  match fst (exchangeAuthorizationCode code_ redirectUri this) with
  | Returned r => Some (req_body r)
  | Threw _ => None
  end
  = Some (Querystring.stringify
            (snakePipe [("clientId", VStr (clientId this));
                        ("clientSecret", VStr (clientSecret this));
                        ("code", VStr code_);
                        ("redirectUri", optional redirectUri)])).
Proof. reflexivity. Qed.

(** X16: with a non-empty [clientId] and [clientSecret], the body
    [exchangeAuthorizationCode] sends is
    [client_id=..&client_secret=..&code=..], with [&redirect_uri=..]
    after it when a non-empty [redirectUri] is given, every value
    percent-encoded; an empty [code] is not sent at all: the body is then
    [client_id=..&client_secret=..]. *)
Theorem exchangeAuthorizationCode_body_fields
    (code_ redirect : string) (this : Dribbble) :
  snakeCase "clientId" = "client_id" ->
  snakeCase "clientSecret" = "client_secret" ->
  snakeCase "code" = "code" ->
  snakeCase "redirectUri" = "redirect_uri" ->
  clientId this <> "" -> clientSecret this <> "" ->
  let sent_body (m : M AxiosPromise) :=
    match fst (m this) with
    | Returned r => Some (req_body r)
    | Threw _ => None
    end in
  let credentials :=
    "client_id=" ++ Querystring.escape (clientId this)
    ++ "&client_secret=" ++ Querystring.escape (clientSecret this) in
  (code_ <> "" ->
   sent_body (exchangeAuthorizationCode code_ None)
   = Some (credentials ++ "&code=" ++ Querystring.escape code_)) /\
  (code_ <> "" -> redirect <> "" ->
   sent_body (exchangeAuthorizationCode code_ (Some redirect))
   = Some (credentials ++ "&code=" ++ Querystring.escape code_
           ++ "&redirect_uri=" ++ Querystring.escape redirect)) /\
  sent_body (exchangeAuthorizationCode "" None) = Some credentials.
Proof.
  intros H1 H2 H3 H4 Hc Hs sent_body credentials.
  unfold sent_body. rewrite !exchange_sent_body. cbn [optional].
  split; [|split].
  - intros Hcode.
    rewrite (token_body H1 H2 H3 H4 _ _ code_ VUndefined Hc Hs).
    rewrite (truthy_VStr code_ Hcode). unfold credentials.
    cbn. rewrite !append_assoc. reflexivity.
  - intros Hcode Hr.
    rewrite (token_body H1 H2 H3 H4 _ _ code_ (VStr redirect) Hc Hs).
    rewrite (truthy_VStr code_ Hcode), (truthy_VStr redirect Hr).
    unfold credentials. cbn. rewrite !append_assoc. reflexivity.
  - rewrite (token_body H1 H2 H3 H4 _ _ "" VUndefined Hc Hs).
    unfold credentials. cbn. rewrite !append_assoc. reflexivity.
Qed.

(** X17: the file of [createAttachment] does not reach the wire: the
    body is made by [querystring.stringify], which writes an object such
    as a [Buffer] as the empty string, so that for every identifier and
    every file object the request is a POST to the attachments of the
    shot with the body [file=]. *)
Theorem createAttachment_body (id tag : string) (this : Dribbble) :
  snakeCase "file" = "file" ->
  accessToken this <> "" ->
  exists r,
    issues (createAttachment id (VObject tag)) this r /\
    req_method r = POST /\
    req_url r = fullURL (baseURL (client this)) ("/shots/" ++ id ++ "/attachments") /\
    req_body r = "file=".
Proof.
  intros Hf Ht. eexists. split.
  - unfold issues, createAttachment. rewrite guard_passes by assumption.
    apply client_request_issues.
  - repeat split. unfold outgoing.
    cbn [fst Axios.request req_body data]. unfold transformRequest, snakePipe.
    cbn. rewrite Hf. reflexivity.
Qed.

(** X18: each of the four list methods hands its [Pager] to the
    transport as query parameters under the names [page] and [perPage],
    whatever the two numbers are, and sends an empty body. *)
Theorem pager_passed_as_params (p : Pager) (this : Dribbble) :
  accessToken this <> "" ->
  Forall (fun m : Pager -> M AxiosPromise =>
            exists r, issues (m p) this r /\
                      req_method r = GET /\
                      req_params r = Some [("page", VNum (page p));
                                           ("perPage", VNum (perPage p))] /\
                      req_body r = "")
    [getLikes; getUserProject; getUserShots; getPopularShots].
Proof.
  intros Ht. repeat constructor; eexists; unfold issues;
    (split; [unfold_methods; rewrite ?guard_passes by assumption;
             apply client_request_issues | repeat split]).
Qed.

End Dribbble.

(** ** The model of lodash's casing functions

    camelCase splits a key into the same words before and after
    snakeCase: the words of a key are runs of letters, runs of digits
    and ordinals, snakeCase writes them in small letters with an
    underscore between them, and each of them is then found again as one
    word. *)

Section Casing.

Import Lodash.




















Lemma isDigit_classify c : isDigit c = true -> classify c = Digit.
Proof. unfold isDigit. destruct (classify c); intros H; now try discriminate H. Qed.

Lemma isDigit_not_lower c : isDigit c = true -> isLower c = false.
Proof. intros H. unfold isLower. now rewrite (isDigit_classify c H). Qed.





















End Casing.

(** ** The client with lodash's functions on concrete inputs *)

Example snakeCase_keys :
  map Lodash.snakeCase
    ["clientId"; "clientSecret"; "redirectUri"; "perPage"; "scope"; "state"]
  = ["client_id"; "client_secret"; "redirect_uri"; "per_page"; "scope"; "state"].
Proof. reflexivity. Qed.

Example camelCase_keys :
  map Lodash.camelCase ["access_token"; "token_type"; "created_at"; "scope"]
  = ["accessToken"; "tokenType"; "createdAt"; "scope"].
Proof. reflexivity. Qed.

Example getProfile_after_setAccessToken :
  let this := snd (setAccessToken "abc123" (new_Dribbble example_config)) in
  exists r,
    issues (getProfile Lodash.snakeCase) this r /\
    req_method r = GET /\
    req_url r = "https://api.dribbble.com/v2/user" /\
    carries "Authorization" "Bearer abc123" r.
Proof.
  eexists (outgoing Lodash.snakeCase _ _). repeat split.
Qed.

Example requests_after_two_tokens :
  let d1 := run Lodash.snakeCase
              [SetAccessToken "first"; Invoke GetProfile;
               SetAccessToken "abc123"]
              (new_Dribbble example_config) in
  let d2 := run Lodash.snakeCase
              [Invoke GetProfile; Invoke (GetShot "7");
               Invoke (ExchangeAuthorizationCode "c0de" None);
               Invoke (GetLikes example_pager)] d1 in
  map (fun r => (req_url r, Js.lookup "Authorization" (req_headers r)))
      (sent_since d1 d2)
  = [("https://api.dribbble.com/v2/user", Some (VStr "Bearer abc123"));
     ("https://api.dribbble.com/v2/shots/7", Some (VStr "Bearer abc123"));
     ("https://dribbble.com/oauth/token", Some (VStr "Bearer abc123"));
     ("https://api.dribbble.com/v2/user/likes", Some (VStr "Bearer abc123"))].
Proof. reflexivity. Qed.

Example exchangeAuthorizationCode_body :
  req_body (outgoing Lodash.snakeCase (new_Dribbble example_config)
              {| method := POST; url := OAUTH_ENDPOINT ++ "/token";
                 data := Some [("clientId", VStr "abc");
                               ("clientSecret", VStr "s3cret");
                               ("code", VStr "c0de");
                               ("redirectUri", VUndefined)];
                 params := None |})
  = "client_id=abc&client_secret=s3cret&code=c0de".
Proof. reflexivity. Qed.

(** C4 on the code: with a token installed, [getLikes], [getUserProject],
    [getUserShots] and [getPopularShots] hand the [Pager] to axios as
    [params], which [transformRequest] never sees: the request carries
    the fields [page] and [perPage] under those names, falsy values
    included, and an empty body, whereas the outbound transform of the
    same [Pager] has the key [per_page] and drops a [page] of 0. *)
Theorem pager_params_bypass_snakePipe :
  let this := snd (setAccessToken "t" (new_Dribbble example_config)) in
  let sent_params (m : M AxiosPromise) :=
    match fst (m this) with
    | Returned r => (req_params r, req_body r)
    | Threw _ => (None, "")
    end in
  let raw := (Some [("page", VNum 1); ("perPage", VNum 10)], "") in
  sent_params (getLikes Lodash.snakeCase example_pager) = raw /\
  sent_params (getUserProject Lodash.snakeCase example_pager) = raw /\
  sent_params (getUserShots Lodash.snakeCase example_pager) = raw /\
  sent_params (getPopularShots Lodash.snakeCase example_pager) = raw /\
  snakePipe Lodash.snakeCase (Pager_obj example_pager)
    = [("page", VNum 1); ("per_page", VNum 10)] /\
  sent_params (getLikes Lodash.snakeCase {| page := 0; perPage := 10 |})
    = (Some [("page", VNum 0); ("perPage", VNum 10)], "") /\
  snakePipe Lodash.snakeCase (Pager_obj {| page := 0; perPage := 10 |})
    = [("per_page", VNum 10)].
Proof. repeat split. Qed.

(** *** Instances of the theorems that have hypotheses *)

Lemma protected_call_without_token_witness :
  (protected GetProfile = true /\
   accessToken (new_Dribbble example_config) = "") /\
  invoke Lodash.snakeCase GetProfile (new_Dribbble example_config)
    = (Threw Unauthorized, new_Dribbble example_config) /\
  code Unauthorized = 403%Z /\
  sent (client (snd (invoke Lodash.snakeCase GetProfile
                       (new_Dribbble example_config))))
    = sent (client (new_Dribbble example_config)).
Proof.
  split; [split; reflexivity|].
  apply (protected_call_without_token Lodash.snakeCase GetProfile
           (new_Dribbble example_config)); reflexivity.
Defined.

Lemma example_payload_NoDup : NoDup (keys example_payload).
Proof.
  repeat constructor; simpl; intros H;
    repeat (destruct H as [H|H]; [discriminate H|]); exact H.
Defined.

Lemma snakePipe_spec_witness :
  (NoDup (keys example_payload) /\
   Lodash.snakeCase "clientId" = "client_id") /\
  (forall k', In k' (keys (snakePipe Lodash.snakeCase example_payload)) <->
     exists k v, In (k, v) example_payload /\ truthy v = true /\
                 Lodash.unsafe_key k = false /\ Lodash.snakeCase k = k') /\
  Js.lookup (Lodash.snakeCase "perPage")
    (snakePipe Lodash.snakeCase example_payload) = Some (VNum 10) /\
  snakePipe Lodash.snakeCase [("clientId", VStr "x"); ("state", VUndefined)]
    = [("client_id", VStr "x")].
Proof.
  split; [split; [exact example_payload_NoDup | reflexivity]|].
  destruct (snakePipe_spec Lodash.snakeCase) as (Hdata & _ & Hexample).
  destruct (Hdata example_payload example_payload_NoDup) as (Hkeys & _ & Hlast).
  split; [exact Hkeys|]. split.
  - apply (Hlast [("clientId", VStr "x")] "perPage" (VNum 10)
             [("state", VUndefined)]);
      [reflexivity | reflexivity | reflexivity |].
    intros k2 v2 [E|[]] Ht. injection E as <- <-. discriminate Ht.
  - apply Hexample. reflexivity.
Defined.


Lemma getAuthorizationUrl_spec_witness :
  let this := new_Dribbble example_config in
  getAuthorizationUrl Lodash.snakeCase None None None this
    = (Returned "https://dribbble.com/oauth/authorize?client_id=abc&scope=public",
       this) /\
  getAuthorizationUrl Lodash.snakeCase
    (Some "upload") (Some "https://app/cb") (Some "xyz") this
    = (Returned
         "https://dribbble.com/oauth/authorize?client_id=abc&scope=upload&redirect_uri=https%3A%2F%2Fapp%2Fcb&state=xyz",
       this).
Proof.
  intros this.
  destruct (getAuthorizationUrl_spec Lodash.snakeCase this
              eq_refl eq_refl eq_refl eq_refl) as (H1 & H2 & _).
  split.
  - apply H1; discriminate.
  - exact H2.
Defined.

Lemma setAccessToken_empty_deauthorizes_witness :
  let d1 := snd (setAccessToken ""
                   (snd (setAccessToken "abc123" (new_Dribbble example_config)))) in
  let d2 := run Lodash.snakeCase [Invoke (GetShot "1")] d1 in
  protected (LikeShot "1") = true /\
  invoke Lodash.snakeCase (LikeShot "1") d2 = (Threw Unauthorized, d2) /\
  Js.lookup "Authorization" (headers_common (client d2)) = Some (VStr "Bearer ").
Proof.
  intros d1 d2. split; [reflexivity|].
  destruct (setAccessToken_empty_deauthorizes Lodash.snakeCase
              (snd (setAccessToken "abc123" (new_Dribbble example_config)))
              [GetShot "1"] (LikeShot "1") eq_refl) as (H1 & _ & _ & H2).
  split; [exact H1 | exact H2].
Defined.

(** *** Inputs on which the claims, as they are worded, fail *)

(** C3 as worded: two keys with one snake_case form, where the value
    of the first is not in the result; and a truthy value under the key
    [constructor], which is not in the result at all. *)
Lemma snakePipe_collision :
  let data := [("clientId", VStr "x"); ("client_id", VStr "y")] in
  let special := [("constructor", VStr "c"); ("name", VStr "n")] in
  (NoDup (keys data) /\
   In ("clientId", VStr "x") data /\ truthy (VStr "x") = true /\
   snakePipe Lodash.snakeCase data = [("client_id", VStr "y")] /\
   Js.lookup (Lodash.snakeCase "clientId") (snakePipe Lodash.snakeCase data)
     <> Some (VStr "x")) /\
  (NoDup (keys special) /\
   In ("constructor", VStr "c") special /\ truthy (VStr "c") = true /\
   snakePipe Lodash.snakeCase special = [("name", VStr "n")] /\
   ~ In (Lodash.snakeCase "constructor")
        (keys (snakePipe Lodash.snakeCase special))).
Proof.
  simpl. repeat split.
  - repeat constructor; simpl; intros H;
      repeat (destruct H as [H|H]; [discriminate H|]); exact H.
  - now left.
  - discriminate.
  - repeat constructor; simpl; intros H;
      repeat (destruct H as [H|H]; [discriminate H|]); exact H.
  - now left.
  - intros H. repeat (destruct H as [H|H]; [discriminate H|]). exact H.
Qed.


(** C5 as worded: a client configured with the empty [clientId] gets a
    URL without any [client_id] field, and a [clientId] with a space is
    in the query in its percent-encoded form only. *)
Lemma getAuthorizationUrl_clientId_counterexample :
  let empty := new_Dribbble {| cfg_clientId := ""; cfg_clientSecret := "s3cret";
                               cfg_scope := "public" |} in
  let spaced := new_Dribbble {| cfg_clientId := "a b"; cfg_clientSecret := "s3cret";
                                cfg_scope := "public" |} in
  fst (getAuthorizationUrl Lodash.snakeCase None None None empty)
    = Returned "https://dribbble.com/oauth/authorize?scope=public" /\
  ~ In ("client_id=" ++ clientId empty)
       (query_fields "https://dribbble.com/oauth/authorize?scope=public") /\
  fst (getAuthorizationUrl Lodash.snakeCase None None None spaced)
    = Returned "https://dribbble.com/oauth/authorize?client_id=a%20b&scope=public" /\
  ~ In ("client_id=" ++ clientId spaced)
       (query_fields
          "https://dribbble.com/oauth/authorize?client_id=a%20b&scope=public").
Proof.
  simpl. repeat split.
  - intros H. repeat (destruct H as [H|H]; [discriminate H|]). exact H.
  - intros H. repeat (destruct H as [H|H]; [discriminate H|]). exact H.
Qed.

(** *** Instances of the further theorems that have hypotheses *)

Lemma example_response_NoDup : NoDup (keys example_response).
Proof.
  repeat constructor; simpl; intros H;
    repeat (destruct H as [H|H]; [discriminate H|]); exact H.
Defined.

Lemma camelPipe_spec_witness :
  NoDup (keys example_response) /\
  (forall k', In k' (keys (camelPipe Lodash.camelCase example_response)) <->
              In k' ["accessToken"; "tokenType"; "expiresIn"]) /\
  Js.lookup "expiresIn" (camelPipe Lodash.camelCase example_response)
    = Some (VNum 0).
Proof.
  split; [exact example_response_NoDup|].
  destruct (camelPipe_spec Lodash.camelCase example_response
              example_response_NoDup) as (Hkeys & _ & Hlast & _).
  split; [exact Hkeys|].
  apply (Hlast [("access_token", VStr "abc123"); ("token_type", VStr "bearer")]
           "expires_in" (VNum 0) []); [reflexivity|].
  intros k2 [].
Defined.

Lemma pipes_keep_order_witness :
  NoDup (keys example_payload) /\
  snakePipe Lodash.snakeCase example_payload
    = [("client_id", VStr "x"); ("per_page", VNum 10)] /\
  camelPipe Lodash.camelCase example_response
    = [("accessToken", VStr "abc123"); ("tokenType", VStr "bearer");
       ("expiresIn", VNum 0)].
Proof.
  split; [exact example_payload_NoDup|]. split.
  - apply (proj1 (pipes_keep_order Lodash.snakeCase Lodash.camelCase
                    example_payload example_payload_NoDup)).
    + repeat constructor; simpl; intros H;
        repeat (destruct H as [H|H]; [discriminate H|]); exact H.
    + intros k [<-|[<-|[]]]; reflexivity.
  - apply (proj2 (pipes_keep_order Lodash.snakeCase Lodash.camelCase
                    example_response example_response_NoDup)).
    + repeat constructor; simpl; intros H;
        repeat (destruct H as [H|H]; [discriminate H|]); exact H.
    + intros k [<-|[<-|[<-|[]]]]; reflexivity.
Defined.

Lemma snakePipe_twice_witness :
  NoDup (keys example_payload) /\
  Js.lookup "per_page"
    (snakePipe Lodash.snakeCase (snakePipe Lodash.snakeCase example_payload))
  = Js.lookup "per_page" (snakePipe Lodash.snakeCase example_payload).
Proof.
  split; [exact example_payload_NoDup|].
  apply (snakePipe_twice Lodash.snakeCase example_payload
           example_payload_NoDup).
  intros k [<-|[<-|[]]]; split; reflexivity.
Defined.

Lemma invoke_throws_iff_witness :
  let this := new_Dribbble example_config in
  request_of this (LikeShot "7") <> None /\
  (forall e, fst (invoke Lodash.snakeCase (LikeShot "7") this) = Threw e <->
             protected (LikeShot "7") = true /\ accessToken this = "" /\
             e = Unauthorized) /\
  ((protected (UnlikeShot "7") = true /\ accessToken this = "") \/
   exists cfg,
     request_of this (UnlikeShot "7") = Some cfg /\
     invoke Lodash.snakeCase (UnlikeShot "7") this
     = (Returned (RPromise (outgoing Lodash.snakeCase this cfg)),
        logged (outgoing Lodash.snakeCase this cfg) this)).
Proof.
  intros this. split; [discriminate|]. split.
  - apply (invoke_throws_iff Lodash.snakeCase (LikeShot "7") this).
    discriminate.
  - apply (invoke_throws_iff Lodash.snakeCase (UnlikeShot "7") this).
    discriminate.
Defined.

Lemma getAuthorizationUrl_reads_witness :
  let this := new_Dribbble example_config in
  let this' :=
    snd (setAccessToken "t"
           (new_Dribbble {| cfg_clientId := "abc"; cfg_clientSecret := "other";
                            cfg_scope := "public" |})) in
  (clientId this' = clientId this /\ scope this' = scope this) /\
  fst (getAuthorizationUrl Lodash.snakeCase None None (Some "xyz") this')
    = fst (getAuthorizationUrl Lodash.snakeCase None None (Some "xyz") this) /\
  snd (getAuthorizationUrl Lodash.snakeCase None None (Some "xyz") this) = this /\
  forall u,
    fst (getAuthorizationUrl Lodash.snakeCase None None (Some "xyz") this)
      = Returned u ->
    String.prefix "https://dribbble.com/oauth/authorize" u = true.
Proof.
  intros this this'. split; [split; reflexivity|].
  apply (getAuthorizationUrl_reads Lodash.snakeCase None None (Some "xyz")
           this this'); reflexivity.
Defined.

Lemma snakePipe_ignores_falsy_witness :
  NoDup (keys example_payload) /\
  snakePipe Lodash.snakeCase example_payload
  = snakePipe Lodash.snakeCase [("clientId", VStr "x"); ("perPage", VNum 10)].
Proof.
  split; [exact example_payload_NoDup|].
  apply (snakePipe_ignores_falsy Lodash.snakeCase example_payload
           example_payload_NoDup).
Defined.

Lemma endpoint_table_witness :
  let this := snd (setAccessToken "t" (new_Dribbble example_config)) in
  (baseURL (client this) = API_ENDPOINT /\
   goes_out this (UpdateShot "7" example_payload) = true) /\
  exists r,
    invoke Lodash.snakeCase (UpdateShot "7" example_payload) this
      = (Returned (RPromise r), logged r this) /\
    req_method r = POST /\
    req_url r = "https://api.dribbble.com/v2/shots/7".
Proof.
  intros this. split; [split; reflexivity|].
  apply (endpoint_table Lodash.snakeCase (UpdateShot "7" example_payload) this
           POST "https://api.dribbble.com/v2/shots/7"); reflexivity.
Defined.

Lemma exchangeAuthorizationCode_body_fields_witness :
  let this := new_Dribbble example_config in
  match fst (exchangeAuthorizationCode Lodash.snakeCase "c0de"
               (Some "https://app/cb") this) with
  | Returned r => Some (req_body r)
  | Threw _ => None
  end
  = Some "client_id=abc&client_secret=s3cret&code=c0de&redirect_uri=https%3A%2F%2Fapp%2Fcb".
Proof.
  intros this.
  destruct (exchangeAuthorizationCode_body_fields Lodash.snakeCase
              "c0de" "https://app/cb" this
              eq_refl eq_refl eq_refl eq_refl)
    as (_ & H & _); [discriminate | discriminate |].
  apply H; discriminate.
Defined.

Lemma createAttachment_body_witness :
  let this := snd (setAccessToken "t" (new_Dribbble example_config)) in
  exists r,
    issues (createAttachment Lodash.snakeCase "7" (VObject "Buffer")) this r /\
    req_method r = POST /\
    req_url r = "https://api.dribbble.com/v2/shots/7/attachments" /\
    req_body r = "file=".
Proof.
  intros this.
  apply (createAttachment_body Lodash.snakeCase "7" "Buffer" this);
    [reflexivity | discriminate].
Defined.

Lemma pager_passed_as_params_witness :
  let this := snd (setAccessToken "t" (new_Dribbble example_config)) in
  accessToken this <> "" /\
  Forall (fun m : Pager -> M AxiosPromise =>
            exists r, issues (m example_pager) this r /\
                      req_method r = GET /\
                      req_params r = Some [("page", VNum 1); ("perPage", VNum 10)] /\
                      req_body r = "")
    [getLikes Lodash.snakeCase; getUserProject Lodash.snakeCase;
     getUserShots Lodash.snakeCase; getPopularShots Lodash.snakeCase].
Proof.
  intros this. split; [discriminate|].
  apply (pager_passed_as_params Lodash.snakeCase example_pager this).
  discriminate.
Defined.
